(** * OrderedByLookupDict: the recency-ordered bounded mapping of
    [gdpc_lib/gdpc_doc/utils.py]

    The class derives from Python's [collections.OrderedDict] and overrides
    [__init__], [__getitem__], [__setitem__] and the [maxSize] property.  The
    inherited ordered mapping is embedded as an association list, oldest entry
    first; the instance attribute [_maxSize] is an optional integer because it
    does not exist before [__init__] assigns it.  Methods are state
    transformers that yield either a value or a raised exception, together
    with the instance as the call leaves it. *)

From Stdlib Require Import ZArith Lia.
From stdpp Require Import base decidable option list strings.

Set Default Proof Using "Type".
Open Scope Z_scope.

(** ** Exceptions and outcomes *)

(** [ValueError] is Python's exception for an unacceptable argument; the
    class under study has no statement that raises it. *)
Inductive exception : Type :=
  | KeyError
  | AttributeError
  | StopIteration
  | ValueError.

Inductive outcome (A : Type) : Type :=
  | Return (a : A)
  | Raise (e : exception).
Arguments Return {A} a.
Arguments Raise {A} e.

(** ** Instances and method bodies *)

Section Monad.
Context {KT VT : Type}.

(** The instance: the entries of the inherited ordered dict, from the least
    to the most recently looked-up key, and the attribute [_maxSize]. *)
Record obj : Type := Obj {
  entries : list (KT * VT);
  _maxSize : option Z
}.

(** A method body runs on the instance and yields an outcome and the
    instance as mutated so far: a raised exception undoes nothing. *)
Definition M (A : Type) : Type := obj -> outcome A * obj.

Definition ret {A : Type} (a : A) : M A := fun self => (Return a, self).

Definition bind {A B : Type} (c : M A) (k : A -> M B) : M B :=
  fun self =>
    match c self with
    | (Return a, self') => k a self'
    | (Raise e, self') => (Raise e, self')
    end.

(** The instance a call leaves behind, whether it returned or raised. *)
Definition after {A : Type} (c : M A) (self : obj) : obj := snd (c self).

Definition keys (self : obj) : list KT := (entries self).*1.
End Monad.

Arguments obj : clear implicits.
Arguments M : clear implicits.

Notation "'let*' x ':=' c 'in' k" := (bind c (fun x => k))
  (at level 10, x name, c at level 100, k at level 200,
   format "'[v' 'let*'  x  ':='  c  'in' '/' k ']'").

Section Model.
Context {KT VT : Type} `{EqDecision KT}.

Local Abbreviation obj := (obj KT VT).
Local Abbreviation M := (M KT VT).

(** *** Association-list primitives *)

Fixpoint assoc (key : KT) (l : list (KT * VT)) : option VT :=
  match l with
  | [] => None
  | (k, v) :: l' => if decide (k = key) then Some v else assoc key l'
  end.

Definition without (key : KT) (l : list (KT * VT)) : list (KT * VT) :=
  filter (fun kv => kv.1 <> key) l.

Fixpoint replace (key : KT) (value : VT) (l : list (KT * VT)) : list (KT * VT) :=
  match l with
  | [] => []
  | (k, v) :: l' =>
      if decide (k = key) then (k, value) :: l' else (k, v) :: replace key value l'
  end.

(** *** Inherited behaviour ([dict] and [OrderedDict]) *)

(** [key in self] *)
Definition __contains__ (key : KT) : M bool :=
  fun self => (Return (bool_decide (key ∈ keys self)), self).

(** [len(self)] *)
Definition __len__ : M Z :=
  fun self => (Return (Z.of_nat (length (entries self))), self).

(** [super().__getitem__(key)] *)
Definition super__getitem__ (key : KT) : M VT :=
  fun self =>
    match assoc key (entries self) with
    | Some v => (Return v, self)
    | None => (Raise KeyError, self)
    end.

(** [self.move_to_end(key)] *)
Definition move_to_end (key : KT) : M unit :=
  fun self =>
    match assoc key (entries self) with
    | Some v =>
        (Return tt, Obj (without key (entries self) ++ [(key, v)]) (_maxSize self))
    | None => (Raise KeyError, self)
    end.

(** [super().__setitem__(key, value)]: an existing key keeps its position. *)
Definition super__setitem__ (key : KT) (value : VT) : M unit :=
  fun self =>
    let l := entries self in
    (Return tt,
     Obj (if bool_decide (key ∈ l.*1) then replace key value l else l ++ [(key, value)])
         (_maxSize self)).

(** [del self[key]] *)
Definition __delitem__ (key : KT) : M unit :=
  fun self =>
    if bool_decide (key ∈ keys self)
    then (Return tt, Obj (without key (entries self)) (_maxSize self))
    else (Raise KeyError, self).

(** [next(iter(self))] *)
Definition next_iter : M KT :=
  fun self =>
    match entries self with
    | (k, _) :: _ => (Return k, self)
    | [] => (Raise StopIteration, self)
    end.

(** [self._maxSize] *)
Definition get_maxSize : M Z :=
  fun self =>
    match _maxSize self with
    | Some m => (Return m, self)
    | None => (Raise AttributeError, self)
    end.

(** [self._maxSize = value] *)
Definition set_maxSize (value : Z) : M unit :=
  fun self => (Return tt, Obj (entries self) (Some value)).

(** *** The methods of [OrderedByLookupDict] *)

(** [maxSize] (property getter) *)
Definition maxSize : M Z := get_maxSize.

(** [__getitem__] *)
Definition __getitem__ (key : KT) : M VT :=
  let* value := super__getitem__ key in
  let* _ := move_to_end key in
  ret value.

(** [__setitem__] *)
Definition __setitem__ (key : KT) (value : VT) : M unit :=
  let* present := __contains__ key in
  let* _ := (if present then move_to_end key else ret tt) in
  let* _ := super__setitem__ key value in
  let* m := get_maxSize in
  if bool_decide (m > 0) then
    let* n := __len__ in
    let* m' := get_maxSize in
    if bool_decide (n > m') then
      let* oldest := next_iter in
      __delitem__ oldest
    else ret tt
  else ret tt.

(** [update] as [OrderedDict] inherits it from [MutableMapping]: every pair
    is stored with [self[key] = value], that is, through the [__setitem__]
    of the instance's own class.  It is also what a caller does who assigns
    the pairs one after the other. *)
Fixpoint update (pairs : list (KT * VT)) : M unit :=
  match pairs with
  | [] => ret tt
  | (key, value) :: pairs' =>
      let* _ := __setitem__ key value in
      update pairs'
  end.

(** [super().__init__] on the remaining constructor arguments:
    [OrderedDict.__init__] passes them to [update].  [args] is the sequence
    of pairs they supply, in order. *)
Definition super__init__ (args : list (KT * VT)) : M unit := update args.

(** [__init__] *)
Definition __init__ (maxSize : Z) (args : list (KT * VT)) : M unit :=
  let* _ := super__init__ args in
  set_maxSize maxSize.

(** The instance [__init__] receives: an empty dict without attributes. *)
Definition blank : obj := Obj [] None.

(** The constructor call [OrderedByLookupDict(maxSize, ...)]. *)
Definition new (maxSize : Z) (args : list (KT * VT)) : outcome unit * obj :=
  __init__ maxSize args blank.

(** The [while] loop of the [maxSize] setter.  [fuel] bounds how often the
    condition is tested; [None] means the bound was reached. *)
Fixpoint maxSize_setter_loop (fuel : nat) (self : obj) : option (outcome unit * obj) :=
  match fuel with
  | O => None
  | S fuel' =>
      match (let* n := __len__ in let* m := maxSize in ret (bool_decide (n > m))) self with
      | (Raise e, self1) => Some (Raise e, self1)
      | (Return false, self1) => Some (Return tt, self1)
      | (Return true, self1) =>
          match (let* oldest := next_iter in __delitem__ oldest) self1 with
          | (Raise e, self2) => Some (Raise e, self2)
          | (Return _, self2) => maxSize_setter_loop fuel' self2
          end
      end
  end.

(** [maxSize] (property setter) *)
Definition maxSize_setter (fuel : nat) (value : Z) (self : obj)
  : option (outcome unit * obj) :=
  match (let* _ := set_maxSize value in get_maxSize) self with
  | (Raise e, self1) => Some (Raise e, self1)
  | (Return m, self1) =>
      if bool_decide (m > 0) then maxSize_setter_loop fuel self1
      else Some (Return tt, self1)
  end.

(** ** Vocabulary of the properties *)

(** Entries once [__setitem__] has stored the pair and before it looks at
    the size: the key, wherever it was, sits last with the new value. *)
Definition stored (key : KT) (value : VT) (l : list (KT * VT)) : list (KT * VT) :=
  without key l ++ [(key, value)].

(** The closing [if] of [__setitem__] on entries [l] under [_maxSize = c]. *)
Definition trimmed (c : Z) (l : list (KT * VT)) : list (KT * VT) :=
  if bool_decide (c > 0) && bool_decide (Z.of_nat (length l) > c)
  then match l with
       | (oldest, _) :: _ => without oldest l
       | [] => l
       end
  else l.

(** [b] comes before [a] in the iteration order [ks]. *)
Definition precedes (b a : KT) (ks : list KT) : Prop :=
  exists l1 l2 l3, ks = l1 ++ b :: l2 ++ a :: l3.

(** A lookup or an assignment made by a caller, who catches [KeyError]. *)
Inductive access : Type :=
  | Get (key : KT)
  | Set_ (key : KT) (value : VT).

Definition touched (x : access) : KT :=
  match x with Get key => key | Set_ key _ => key end.

Definition perform (x : access) (self : obj) : obj :=
  match x with
  | Get key => after (__getitem__ key) self
  | Set_ key value => after (__setitem__ key value) self
  end.

Definition perform_all (trace : list access) (self : obj) : obj :=
  fold_left (fun s x => perform x s) trace self.

End Model.

(** ** Sample instances, with string keys and integer values *)

Definition cache (maxSize : Z) (l : list (string * Z)) : obj string Z := Obj l (Some maxSize).

(** Two entries under capacity 2: a full cache. *)
Definition full2 : obj string Z := cache 2 [("A"%string, 1); ("B"%string, 2)].

(** Three entries under capacity 3. *)
Definition full3 : obj string Z := cache 3 [("A"%string, 1); ("B"%string, 2); ("C"%string, 3)].

(** ** Calls of a client, the capacity setter included *)

Section Calls.
Context {KT VT : Type} `{EqDecision KT}.

(** What a client does with an instance: [d[key]] (catching [KeyError]),
    [d[key] = value] and [d.maxSize = value]. *)
Inductive call : Type :=
  | Lookup (key : KT)
  | Assign (key : KT) (value : VT)
  | Resize (value : Z).

(** One call; the setter's loop gets one test more than there are entries.
    [None] means that this was not enough. *)
Definition step (x : call) (self : obj KT VT) : option (obj KT VT) :=
  match x with
  | Lookup key => Some (after (__getitem__ key) self)
  | Assign key value => Some (after (__setitem__ key value) self)
  | Resize value => snd <$> maxSize_setter (S (length (entries self))) value self
  end.

Fixpoint steps (xs : list call) (self : obj KT VT) : option (obj KT VT) :=
  match xs with
  | [] => Some self
  | x :: xs' =>
      match step x self with
      | Some self' => steps xs' self'
      | None => None
      end
  end.

(** What every instance in use satisfies: unique keys, a capacity that has
    been assigned, and no more entries than a positive capacity allows. *)
Definition sound (self : obj KT VT) : Prop :=
  NoDup (keys self)
  /\ exists c, _maxSize self = Some c /\ (0 < c -> Z.of_nat (length (entries self)) <= c).

End Calls.

(** ** The numeric helpers of the module, on integers *)

(** [sign]: the two comparisons count as 1 or 0 and are subtracted. *)
Definition sign (x : Z) : Z :=
  Z.b2z (bool_decide (x > 0)) - Z.b2z (bool_decide (x < 0)).

(** [nonZeroSign] *)
Definition nonZeroSign (x : Z) : Z := if bool_decide (x >= 0) then 1 else -1.

(** The builtins [max] and [min] on two arguments: the first argument is
    kept unless the second is strictly beyond it. *)
Definition py_max (a b : Z) : Z := if bool_decide (b > a) then b else a.

Definition py_min (a b : Z) : Z := if bool_decide (b < a) then b else a.

(** [clamp] *)
Definition clamp (x minimum maximum : Z) : Z := py_max minimum (py_min maximum x).

(** ** [eagerAll] and [eagerAny] *)

Section Iterables.
Context {W : Type}.

(** An iterable produces its elements on demand: each one is a computation
    on whatever the iteration can touch, and may raise. *)
Definition element : Type := W -> outcome bool * W.

(** [[result for result in iterable]] *)
Fixpoint comprehension (iterable : list element) (w : W) : outcome (list bool) * W :=
  match iterable with
  | [] => (Return [], w)
  | x :: rest =>
      match x w with
      | (Raise e, w1) => (Raise e, w1)
      | (Return result, w1) =>
          match comprehension rest w1 with
          | (Raise e, w2) => (Raise e, w2)
          | (Return results, w2) => (Return (result :: results), w2)
          end
      end
  end.

(** The builtins [all] and [any] on a list already built. *)
Definition all_ (results : list bool) : bool := forallb id results.

Definition any_ (results : list bool) : bool := existsb id results.

(** [eagerAll] *)
Definition eagerAll (iterable : list element) (w : W) : outcome bool * W :=
  match comprehension iterable w with
  | (Raise e, w1) => (Raise e, w1)
  | (Return results, w1) => (Return (all_ results), w1)
  end.

(** [eagerAny] *)
Definition eagerAny (iterable : list element) (w : W) : outcome bool * W :=
  match comprehension iterable w with
  | (Raise e, w1) => (Raise e, w1)
  | (Return results, w1) => (Return (any_ results), w1)
  end.

(** The builtins [all] and [any] applied to the iterable itself: they stop
    asking for elements at the first one that decides the answer. *)
Fixpoint lazy_all (iterable : list element) (w : W) : outcome bool * W :=
  match iterable with
  | [] => (Return true, w)
  | x :: rest =>
      match x w with
      | (Raise e, w1) => (Raise e, w1)
      | (Return true, w1) => lazy_all rest w1
      | (Return false, w1) => (Return false, w1)
      end
  end.

Fixpoint lazy_any (iterable : list element) (w : W) : outcome bool * W :=
  match iterable with
  | [] => (Return false, w)
  | x :: rest =>
      match x w with
      | (Raise e, w1) => (Raise e, w1)
      | (Return true, w1) => (Return true, w1)
      | (Return false, w1) => lazy_any rest w1
      end
  end.

(** Where the iteration leaves things once every element has been asked for. *)
Definition exhausted (iterable : list element) (w : W) : W :=
  fold_left (fun w' x => snd (x w')) iterable w.

(** No element ever raises. *)
Definition harmless (iterable : list element) : Prop :=
  Forall (fun x : element => forall w, exists b w', x w = (Return b, w')) iterable.

End Iterables.

(** ** [withRetries] *)

Section Retries.
Context {W T : Type}.

(** [function] and [onRetry] act on whatever they can touch, [W].
    [exceptionType] tells which exceptions the [except] clause matches.  The
    result is the value of [function], or Python's [None].  [fuel] bounds the
    number of turns of the [while True] loop; [None] on the outside means that
    the bound was reached. *)
Fixpoint withRetries (fuel : nat) (function : W -> outcome T * W)
    (exceptionType : exception -> bool) (retries : Z)
    (onRetry : exception -> Z -> W -> outcome unit * W) (reRaise : bool) (w : W)
  : option (outcome (option T) * W) :=
  match fuel with
  | O => None
  | S fuel' =>
      match function w with
      | (Return v, w1) => Some (Return (Some v), w1)
      | (Raise e, w1) =>
          if exceptionType e then
            if bool_decide (retries = 0) then
              if reRaise then Some (Raise e, w1) else Some (Return None, w1)
            else
              match onRetry e retries w1 with
              | (Raise e', w2) => Some (Raise e', w2)
              | (Return _, w2) =>
                  withRetries fuel' function exceptionType (retries - 1) onRetry reRaise w2
              end
          else Some (Raise e, w1)
      end
  end.

(** [function] raises, in every state, an exception the clause matches. *)
Definition always_fails (function : W -> outcome T * W) (exceptionType : exception -> bool)
  : Prop :=
  forall w, exists e w', function w = (Raise e, w') /\ exceptionType e = true.

(** [onRetry] never raises. *)
Definition always_returns (onRetry : exception -> Z -> W -> outcome unit * W) : Prop :=
  forall e r w, exists w', onRetry e r w = (Return tt, w').

End Retries.

(** A caller's test double: the world counts the calls of [function] and
    logs the arguments of [onRetry].  [flaky k v e] raises [e] on its first
    [k] calls and returns [v] from then on. *)
Definition flaky {T : Type} (k : nat) (v : T) (e : exception)
  : nat * list Z -> outcome T * (nat * list Z) :=
  fun '(calls, log) =>
    if bool_decide (calls < k)%nat then (Raise e, (S calls, log))
    else (Return v, (S calls, log)).

Definition note (e : exception) (r : Z) : nat * list Z -> outcome unit * (nat * list Z) :=
  fun '(calls, log) => (Return tt, (calls, log ++ [r])).

(** [r; r - 1; ...], [j] numbers. *)
Fixpoint countdown (r : Z) (j : nat) : list Z :=
  match j with
  | O => []
  | S j' => r :: countdown (r - 1) j'
  end.

Section Facts.
Context {KT VT : Type} `{EqDecision KT}.

(** ** Association-list facts *)

Implicit Types (l : list (KT * VT)) (key k : KT) (value v : VT) (self : obj KT VT).

Lemma assoc_None key l : assoc key l = None <-> key ∉ l.*1.
Proof.
  induction l as [|[k v] l IH]; simpl.
  - split; [intros _; apply not_elem_of_nil | done].
  - rewrite not_elem_of_cons. destruct (decide (k = key)) as [->|Hne].
    + split; [done | intros [? _]; done].
    + rewrite IH. split; [intros ?; split; [by intros -> | done] | intros [_ ?]; done].
Qed.

Lemma assoc_is_Some key l : is_Some (assoc key l) <-> key ∈ l.*1.
Proof.
  rewrite <- not_eq_None_Some, assoc_None.
  destruct (decide (key ∈ l.*1)); naive_solver.
Qed.

Lemma assoc_Some_elem key v l : assoc key l = Some v -> (key, v) ∈ l.
Proof.
  induction l as [|[k w] l IH]; simpl; [done|].
  destruct (decide (k = key)) as [->|]; intros E.
  - injection E as ->. apply list_elem_of_here.
  - apply list_elem_of_further; auto.
Qed.

Lemma without_keys key l : (without key l).*1 = filter (fun k => k <> key) l.*1.
Proof.
  unfold without. induction l as [|[k v] l IH]; [done|].
  rewrite fmap_cons, !filter_cons; simpl.
  destruct (decide (k <> key)); [rewrite fmap_cons; simpl; by f_equal | done].
Qed.

Lemma without_absent key l : key ∉ l.*1 -> without key l = l.
Proof.
  unfold without. induction l as [|[k v] l IH]; [done|].
  rewrite fmap_cons, not_elem_of_cons, filter_cons; simpl.
  intros [Hne Hl]. rewrite decide_True by congruence. by rewrite IH.
Qed.

Lemma without_gone key l : key ∉ (without key l).*1.
Proof. rewrite without_keys, list_elem_of_filter. intros [Hne _]. by apply Hne. Qed.

Lemma without_length_le key l : (length (without key l) <= length l)%nat.
Proof. apply length_filter. Qed.

Lemma without_head k v l : k ∉ l.*1 -> without k ((k, v) :: l) = l.
Proof.
  intros Hk. unfold without. rewrite filter_cons; simpl.
  rewrite decide_False by naive_solver. by apply without_absent.
Qed.

Lemma without_NoDup key l : NoDup l.*1 -> NoDup (without key l).*1.
Proof. rewrite without_keys. apply NoDup_filter. Qed.

Lemma without_nil key : without key ([] : list (KT * VT)) = [].
Proof. done. Qed.

Lemma without_cons_eq key v l : without key ((key, v) :: l) = without key l.
Proof.
  unfold without. rewrite filter_cons. simpl.
  by rewrite decide_False by (intros Hf; by apply Hf).
Qed.

Lemma without_cons_ne key k v l :
  k <> key -> without key ((k, v) :: l) = (k, v) :: without key l.
Proof. intros Hne. unfold without. rewrite filter_cons. simpl. by rewrite decide_True. Qed.

Lemma assoc_cons_eq key v l : assoc key ((key, v) :: l) = Some v.
Proof. simpl. by rewrite decide_True. Qed.

Lemma assoc_cons_ne key k v l : k <> key -> assoc key ((k, v) :: l) = assoc key l.
Proof. intros Hne. simpl. by rewrite decide_False. Qed.

Lemma replace_last key v value l :
  key ∉ l.*1 -> replace key value (l ++ [(key, v)]) = l ++ [(key, value)].
Proof.
  induction l as [|[k w] l IH]; simpl.
  - intros _. by rewrite decide_True.
  - rewrite not_elem_of_cons. intros [Hne Hl].
    rewrite decide_False by congruence. by rewrite IH.
Qed.

(** ** Running the methods *)

Lemma store_run key value self :
  (let* present := __contains__ key in
   let* _ := (if present then move_to_end key else ret tt) in
   super__setitem__ key value) self
  = (Return tt, Obj (stored key value (entries self)) (_maxSize self)).
Proof.
  unfold bind, __contains__, move_to_end, super__setitem__, ret, keys, stored.
  case_bool_decide as Hin.
  - apply assoc_is_Some in Hin as [v Hv]. rewrite Hv.
    cbv beta iota delta [entries _maxSize].
    rewrite bool_decide_true.
    + by rewrite replace_last by apply without_gone.
    + rewrite fmap_app. apply elem_of_app. right. apply list_elem_of_here.
  - rewrite bool_decide_false by done. by rewrite without_absent.
Qed.

Lemma setitem_run key value self c :
  _maxSize self = Some c ->
  __setitem__ key value self
  = (Return tt, Obj (trimmed c (stored key value (entries self))) (Some c)).
Proof.
  intros Hc. unfold __setitem__.
  pose proof (store_run key value self) as Hs. unfold bind in Hs |- *.
  destruct (__contains__ key self) as [[present|e] s1]; [|done].
  destruct ((if present then move_to_end key else ret tt) s1) as [[[]|e] s2]; [|done].
  rewrite Hs. unfold get_maxSize, __len__, next_iter, __delitem__, ret, trimmed, keys; simpl.
  rewrite Hc. case_bool_decide as Hpos; simpl; [|done].
  case_bool_decide as Hlen; simpl; [|done].
  destruct (stored key value (entries self)) as [|[k v] l'] eqn:El; simpl in *; [lia|].
  rewrite bool_decide_true by apply list_elem_of_here. done.
Qed.

Lemma getitem_run_present key v self :
  assoc key (entries self) = Some v ->
  __getitem__ key self = (Return v, Obj (stored key v (entries self)) (_maxSize self)).
Proof.
  intros Hv. unfold __getitem__, bind, super__getitem__, move_to_end, ret.
  rewrite Hv. cbv beta iota. by rewrite Hv.
Qed.

Lemma getitem_run_absent key self :
  key ∉ keys self -> __getitem__ key self = (Raise KeyError, self).
Proof.
  intros Hk. apply assoc_None in Hk.
  unfold __getitem__, bind, super__getitem__. by rewrite Hk.
Qed.

(** With unique keys, deleting the first key drops exactly the first entry. *)
Lemma trimmed_tail c l :
  NoDup l.*1 ->
  trimmed c l
  = if bool_decide (c > 0) && bool_decide (Z.of_nat (length l) > c) then tail l else l.
Proof.
  intros Hnd. unfold trimmed.
  destruct (bool_decide (c > 0) && bool_decide (Z.of_nat (length l) > c)); [|done].
  destruct l as [|[k v] l']; [done|]. simpl.
  rewrite fmap_cons in Hnd. apply NoDup_cons in Hnd as [Hk _]. by apply without_head.
Qed.

Lemma stored_NoDup key value l : NoDup l.*1 -> NoDup (stored key value l).*1.
Proof.
  intros Hnd. unfold stored. rewrite fmap_app. apply NoDup_app. split; [|split].
  - by apply without_NoDup.
  - intros k Hk Hk'. apply list_elem_of_singleton in Hk'. simpl in Hk'. subst k.
    by apply without_gone in Hk.
  - apply NoDup_singleton.
Qed.

Lemma trimmed_NoDup c l : NoDup l.*1 -> NoDup (trimmed c l).*1.
Proof.
  intros Hnd. rewrite trimmed_tail by done.
  destruct (bool_decide (c > 0) && bool_decide (Z.of_nat (length l) > c)); [|done].
  destruct l as [|[k v] l']; [done|]. simpl.
  rewrite fmap_cons in Hnd. by apply NoDup_cons in Hnd as [_ ?].
Qed.

Lemma stored_length_present key value l :
  NoDup l.*1 -> key ∈ l.*1 -> length (stored key value l) = length l.
Proof.
  intros Hnd Hin. unfold stored, without. rewrite length_app. simpl.
  induction l as [|[k v] l IH]; [by apply elem_of_nil in Hin|].
  rewrite fmap_cons in Hnd, Hin. apply NoDup_cons in Hnd as [Hk Hnd].
  rewrite filter_cons. simpl. destruct (decide (k = key)) as [->|Hne].
  - rewrite decide_False by (intros Hf; by apply Hf).
    change (filter _ l) with (without key l). rewrite without_absent by done. simpl. lia.
  - rewrite decide_True by done. simpl. apply elem_of_cons in Hin as [->|Hin]; [done|].
    rewrite <- IH by done. done.
Qed.

Lemma stored_length_absent key value l :
  key ∉ l.*1 -> length (stored key value l) = S (length l).
Proof.
  intros Hk. unfold stored. rewrite without_absent by done. rewrite length_app. simpl. lia.
Qed.

(** The loop of the setter, given enough fuel, keeps the newest entries. *)
Lemma maxSize_setter_loop_run fuel c l :
  0 <= c -> NoDup l.*1 -> (length l < fuel)%nat ->
  maxSize_setter_loop fuel (Obj l (Some c))
  = Some (Return tt, Obj (drop (length l - Z.to_nat c) l) (Some c)).
Proof.
  intros Hc. revert l. induction fuel as [|fuel IH]; intros l Hnd Hfuel; [lia|].
  simpl. unfold bind, __len__, maxSize, get_maxSize, ret, next_iter, __delitem__, keys.
  cbv beta iota delta [entries _maxSize].
  case_bool_decide as Hlen.
  - destruct l as [|[k v] l']; [simpl in Hlen; lia|].
    rewrite bool_decide_true by apply list_elem_of_here.
    rewrite fmap_cons in Hnd. apply NoDup_cons in Hnd as [Hk Hnd].
    rewrite without_head by done. rewrite IH by (simpl in *; done || lia).
    simpl in Hlen |- *.
    replace (S (length l') - Z.to_nat c)%nat with (S (length l' - Z.to_nat c)) by lia.
    done.
  - replace (length l - Z.to_nat c)%nat with 0%nat by lia. done.
Qed.

Lemma maxSize_setter_run fuel (value : Z) self :
  NoDup (keys self) -> (length (entries self) < fuel)%nat ->
  maxSize_setter fuel value self
  = Some (Return tt,
          Obj (if bool_decide (value > 0)
               then drop (length (entries self) - Z.to_nat value) (entries self)
               else entries self)
              (Some value)).
Proof.
  intros Hnd Hfuel. unfold maxSize_setter, bind, set_maxSize, get_maxSize.
  cbv beta iota delta [entries _maxSize].
  case_bool_decide as Hpos; [|done].
  apply maxSize_setter_loop_run; [lia | done | done].
Qed.

(** *** Sizes *)

Lemma stored_length_le key value l : (length (stored key value l) <= S (length l))%nat.
Proof.
  unfold stored. rewrite length_app. simpl.
  pose proof (without_length_le key l). lia.
Qed.

Lemma trimmed_length_le c l :
  0 < c -> Z.of_nat (length l) <= c + 1 -> Z.of_nat (length (trimmed c l)) <= c.
Proof.
  intros Hc Hl. unfold trimmed.
  case_bool_decide as Hpos; [|lia]. case_bool_decide as Hlen; simpl; [|lia].
  destruct l as [|[k v] l']; [simpl in *; lia|].
  unfold without. rewrite filter_cons. simpl.
  rewrite decide_False by (intros Hf; by apply Hf).
  pose proof (length_filter (fun kv : KT * VT => kv.1 <> k) l'). simpl in Hl. lia.
Qed.

Lemma trimmed_over c k v l :
  0 < c -> Z.of_nat (length ((k, v) :: l)) > c ->
  trimmed c ((k, v) :: l) = without k ((k, v) :: l).
Proof.
  intros Hc Hl. unfold trimmed. by rewrite !bool_decide_true by lia.
Qed.

Lemma trimmed_off c l : c <= 0 -> trimmed c l = l.
Proof. intros Hc. unfold trimmed. by rewrite bool_decide_false by lia. Qed.

Lemma trimmed_fits c l : Z.of_nat (length l) <= c -> trimmed c l = l.
Proof.
  intros Hl. unfold trimmed.
  rewrite (bool_decide_false (Z.of_nat (length l) > c)) by lia.
  by rewrite andb_false_r.
Qed.

(** *** Keys and their order *)

Lemma stored_keys key value l :
  (stored key value l).*1 = filter (fun k => k <> key) l.*1 ++ [key].
Proof. unfold stored. by rewrite fmap_app, without_keys. Qed.

Lemma stored_last key value l : last (stored key value l) = Some (key, value).
Proof. unfold stored. apply last_snoc. Qed.

Lemma last_tail {A : Type} (xs : list A) :
  (2 <= length xs)%nat -> last (tail xs) = last xs.
Proof. destruct xs as [|x [|y xs]]; simpl; intros; (lia || done). Qed.

Lemma trimmed_stored_last c key value l :
  NoDup l.*1 -> last (trimmed c (stored key value l)) = Some (key, value).
Proof.
  intros Hnd. rewrite trimmed_tail by by apply stored_NoDup.
  case_bool_decide as Hpos; simpl; [|apply stored_last].
  case_bool_decide as Hlen; simpl; [|apply stored_last].
  rewrite last_tail by lia. apply stored_last.
Qed.

Lemma elem_of_trimmed k c l : k ∈ (trimmed c l).*1 -> k ∈ l.*1.
Proof.
  unfold trimmed. destruct (bool_decide (c > 0) && bool_decide (Z.of_nat (length l) > c)); [|done].
  destruct l as [|[k0 v0] l']; [done|].
  rewrite without_keys, list_elem_of_filter. by intros [_ ?].
Qed.

Lemma elem_of_stored k key value l :
  k ∈ (stored key value l).*1 <-> k = key \/ (k <> key /\ k ∈ l.*1).
Proof.
  rewrite stored_keys, elem_of_app, list_elem_of_filter, list_elem_of_singleton.
  tauto.
Qed.

Lemma precedes_snoc (b a : KT) ks : b ∈ ks -> precedes b a (ks ++ [a]).
Proof.
  intros Hb. apply list_elem_of_split in Hb as (l1 & l2 & ->).
  exists l1, l2, []. by rewrite <- app_assoc.
Qed.

Lemma precedes_app (b a : KT) ks ks' : precedes b a ks -> precedes b a (ks ++ ks').
Proof.
  intros (l1 & l2 & l3 & ->). exists l1, l2, (l3 ++ ks').
  rewrite <- app_assoc. simpl. by rewrite <- app_assoc.
Qed.

Lemma precedes_filter (P : KT -> Prop) `{forall k, Decision (P k)} (b a : KT) ks :
  P b -> P a -> precedes b a ks -> precedes b a (filter P ks).
Proof.
  intros Hb Ha (l1 & l2 & l3 & ->).
  exists (filter P l1), (filter P l2), (filter P l3).
  rewrite filter_app, filter_cons_True by done.
  by rewrite filter_app, filter_cons_True by done.
Qed.

Lemma precedes_tail (b a : KT) ks :
  NoDup ks -> b ∈ tail ks -> precedes b a ks -> precedes b a (tail ks).
Proof.
  intros Hnd Hb (l1 & l2 & l3 & ->). destruct l1 as [|x l1]; simpl in *.
  - apply NoDup_cons in Hnd as [Hnb _]. done.
  - by exists l1, l2, l3.
Qed.

(** *** Sequences of calls *)

Lemma setitem_unset key value self :
  _maxSize self = None ->
  __setitem__ key value self
  = (Raise AttributeError, Obj (stored key value (entries self)) None).
Proof.
  intros Hc. unfold __setitem__.
  pose proof (store_run key value self) as Hs. unfold bind in Hs |- *.
  destruct (__contains__ key self) as [[present|e] s1]; [|done].
  destruct ((if present then move_to_end key else ret tt) s1) as [[[]|e] s2]; [|done].
  rewrite Hs. unfold get_maxSize; simpl. by rewrite Hc.
Qed.

Lemma update_run pairs self c :
  _maxSize self = Some c ->
  update pairs self
  = (Return tt,
     Obj (fold_left (fun l kv => trimmed c (stored kv.1 kv.2 l)) pairs (entries self))
         (Some c)).
Proof.
  revert self. induction pairs as [|[k v] pairs IH]; intros self Hc.
  - destruct self as [l m]. simpl in *. by subst m.
  - simpl. unfold bind. rewrite (setitem_run _ _ _ c) by done. by rewrite IH.
Qed.

Lemma perform_run x self c :
  _maxSize self = Some c ->
  perform x self
  = match x with
    | Get key =>
        match assoc key (entries self) with
        | Some v => Obj (stored key v (entries self)) (Some c)
        | None => self
        end
    | Set_ key value => Obj (trimmed c (stored key value (entries self))) (Some c)
    end.
Proof.
  intros Hc. destruct x as [key|key value]; unfold perform, after.
  - destruct (assoc key (entries self)) as [v|] eqn:Hv.
    + by rewrite (getitem_run_present _ v), Hc.
    + rewrite getitem_run_absent; [done|]. by apply assoc_None.
  - by rewrite (setitem_run _ _ _ c).
Qed.

Lemma perform_keeps x self c :
  _maxSize self = Some c -> NoDup (keys self) ->
  _maxSize (perform x self) = Some c /\ NoDup (keys (perform x self)).
Proof.
  intros Hc Hnd. rewrite (perform_run _ _ c) by done. destruct x as [key|key value].
  - destruct (assoc key (entries self)); [|done].
    split; [done|]. by apply stored_NoDup.
  - split; [done|]. by apply trimmed_NoDup, stored_NoDup.
Qed.

Lemma perform_all_keeps trace self c :
  _maxSize self = Some c -> NoDup (keys self) ->
  _maxSize (perform_all trace self) = Some c /\ NoDup (keys (perform_all trace self)).
Proof.
  revert self. induction trace as [|x trace IH]; intros self Hc Hnd; [done|].
  simpl. destruct (perform_keeps x self c Hc Hnd). by apply IH.
Qed.

(** An access leaves its key behind every other key that is still there. *)
Lemma perform_touched x self c (b : KT) :
  _maxSize self = Some c -> NoDup (keys self) ->
  touched x <> b ->
  touched x ∈ keys (perform x self) -> b ∈ keys (perform x self) ->
  precedes b (touched x) (keys (perform x self)).
Proof.
  intros Hc Hnd Hne. rewrite (perform_run _ _ c) by done.
  assert (forall value l, NoDup l.*1 -> b ∈ (stored (touched x) value l).*1 ->
            precedes b (touched x) (stored (touched x) value l).*1) as Hstored.
  { intros value l _ Hb. rewrite stored_keys in Hb |- *.
    apply precedes_snoc. apply elem_of_app in Hb as [Hb|Hb]; [done|].
    apply list_elem_of_singleton in Hb. congruence. }
  destruct x as [key|key value]; simpl in *.
  - destruct (assoc key (entries self)) as [v|] eqn:Hv.
    + intros _ Hb. by apply Hstored.
    + intros Hk _. apply assoc_None in Hv. done.
  - unfold keys; simpl.
    intros _ Hb. pose proof (stored_NoDup key value _ Hnd) as Hnd'.
    pose proof (elem_of_trimmed _ _ _ Hb) as Hb'.
    rewrite trimmed_tail in Hb |- * by done.
    destruct (bool_decide (c > 0) && bool_decide (_ > c)); [|by apply Hstored].
    rewrite fmap_tail in Hb |- *. apply precedes_tail; [done|done|by apply Hstored].
Qed.

(** An access to another key keeps the relative order of two keys. *)
Lemma perform_other x self c (b a : KT) :
  _maxSize self = Some c -> NoDup (keys self) ->
  touched x <> b -> touched x <> a ->
  (a ∈ keys self -> b ∈ keys self -> precedes b a (keys self)) ->
  a ∈ keys (perform x self) -> b ∈ keys (perform x self) ->
  precedes b a (keys (perform x self)).
Proof.
  intros Hc Hnd Hnb Hna Hord. rewrite (perform_run _ _ c) by done.
  assert (forall value, a ∈ (stored (touched x) value (entries self)).*1 ->
            b ∈ (stored (touched x) value (entries self)).*1 ->
            precedes b a (stored (touched x) value (entries self)).*1) as Hstored.
  { intros value Ha Hb. apply elem_of_stored in Ha as [->|[_ Ha]]; [done|].
    apply elem_of_stored in Hb as [->|[_ Hb]]; [done|].
    rewrite stored_keys. apply precedes_app.
    apply precedes_filter; [congruence|congruence|by apply Hord]. }
  destruct x as [key|key value]; simpl in *.
  - destruct (assoc key (entries self)) as [v|] eqn:Hv; [apply Hstored|apply Hord].
  - unfold keys; simpl.
    intros Ha Hb. pose proof (stored_NoDup key value _ Hnd) as Hnd'.
    pose proof (elem_of_trimmed _ _ _ Ha) as Ha'.
    pose proof (elem_of_trimmed _ _ _ Hb) as Hb'.
    rewrite trimmed_tail in Hb |- * by done.
    destruct (bool_decide (c > 0) && bool_decide (_ > c)); [|by apply Hstored].
    rewrite fmap_tail in Hb |- *. apply precedes_tail; [done|done|by apply Hstored].
Qed.

Lemma update_bound pairs self c :
  _maxSize self = Some c -> 0 < c -> Z.of_nat (length (entries self)) <= c ->
  exists self',
    update pairs self = (Return tt, self') /\
    _maxSize self' = Some c /\ Z.of_nat (length (entries self')) <= c.
Proof.
  intros Hc Hpos. revert self Hc.
  induction pairs as [|[k v] pairs IH]; intros self Hc Hlen.
  - by exists self.
  - simpl. unfold bind. rewrite (setitem_run _ _ _ c) by done.
    apply IH; [done|]. simpl. apply trimmed_length_le; [done|].
    pose proof (stored_length_le k v (entries self)). lia.
Qed.

Lemma perform_all_order later self c (b a : KT) :
  _maxSize self = Some c -> NoDup (keys self) ->
  Forall (fun y => touched y <> b) later ->
  (a ∈ keys self -> b ∈ keys self -> precedes b a (keys self)) ->
  a <> b ->
  a ∈ keys (perform_all later self) -> b ∈ keys (perform_all later self) ->
  precedes b a (keys (perform_all later self)).
Proof.
  intros Hc Hnd Hlater Hord Hab. revert self Hc Hnd Hord.
  induction Hlater as [|y later Hy _ IH]; intros self Hc Hnd Hord; [done|].
  simpl. destruct (perform_keeps y self c Hc Hnd) as [Hc' Hnd'].
  apply IH; [done|done|]. destruct (decide (touched y = a)) as [<-|Hya].
  - by apply (perform_touched _ _ c).
  - by apply (perform_other _ _ c).
Qed.

Lemma stored_length_ge key value l :
  NoDup l.*1 -> (length l <= length (stored key value l))%nat.
Proof.
  intros Hnd. destruct (decide (key ∈ l.*1)).
  - by rewrite stored_length_present.
  - rewrite stored_length_absent by done. lia.
Qed.

(** Under a capacity that is not positive a run of assignments only adds. *)
Lemma update_unbounded pairs self c :
  _maxSize self = Some c -> c <= 0 ->
  exists self',
    update pairs self = (Return tt, self') /\
    _maxSize self' = Some c /\
    (forall k, k ∈ keys self -> k ∈ keys self') /\
    (NoDup (keys self) -> (length (entries self) <= length (entries self'))%nat).
Proof.
  intros Hc Hneg. revert self Hc.
  induction pairs as [|[key value] pairs IH]; intros self Hc.
  - by exists self.
  - simpl. unfold bind. rewrite (setitem_run _ _ _ c) by done.
    rewrite trimmed_off by done.
    destruct (IH (Obj (stored key value (entries self)) (Some c)) eq_refl)
      as (self' & Hrun & Hc' & Hkeys & Hlen).
    exists self'. split; [done|]. split; [done|]. split.
    + intros k Hk. apply Hkeys. unfold keys. simpl. apply elem_of_stored.
      destruct (decide (k = key)); [by left | by right].
    + intros Hnd. pose proof (stored_length_ge key value _ Hnd) as Hge.
      unfold keys in Hlen. simpl in Hlen.
      specialize (Hlen (stored_NoDup key value _ Hnd)). lia.
Qed.

(** The setter keeps the keys unique, as the other calls do. *)
Lemma maxSize_setter_keeps fuel (value : Z) self :
  NoDup (keys self) -> (length (entries self) < fuel)%nat ->
  exists self',
    maxSize_setter fuel value self = Some (Return tt, self') /\
    _maxSize self' = Some value /\ NoDup (keys self').
Proof.
  intros Hnd Hfuel. rewrite maxSize_setter_run by done.
  eexists. split; [done|]. split; [done|]. unfold keys. simpl.
  case_bool_decide; [|done]. rewrite fmap_drop.
  eapply sublist_NoDup; [done | apply sublist_drop].
Qed.

(** *** Two scenarios on pairwise distinct keys *)

(** Capacity 2: store A, store B, read A, store C. *)
Lemma read_refresh_run (A B C : KT) (vA vB vC : VT) :
  A <> B -> A <> C -> B <> C ->
  perform_all [Set_ A vA; Set_ B vB; Get A; Set_ C vC] (snd (new 2 []))
  = Obj [(A, vA); (C, vC)] (Some 2).
Proof.
  intros HAB HAC HBC. unfold perform_all. cbn [fold_left].
  change (snd (new 2 [])) with (Obj (KT:=KT) (VT:=VT) [] (Some 2)).
  assert (forall l : list (KT * VT), _maxSize (Obj l (Some 2)) = Some 2) as Hc by done.
  rewrite (perform_run (Set_ A vA) _ 2 (Hc _)). unfold stored. cbn [entries].
  rewrite without_nil. cbn [app]. rewrite trimmed_fits by (simpl; lia).
  rewrite (perform_run (Set_ B vB) _ 2 (Hc _)). unfold stored. cbn [entries].
  rewrite without_cons_ne, without_nil by congruence. cbn [app].
  rewrite trimmed_fits by (simpl; lia).
  rewrite (perform_run (Get A) _ 2 (Hc _)). unfold stored. cbn [entries].
  rewrite assoc_cons_eq, without_cons_eq, without_cons_ne, without_nil by congruence.
  cbn [app].
  rewrite (perform_run (Set_ C vC) _ 2 (Hc _)). unfold stored. cbn [entries].
  rewrite !without_cons_ne, without_nil by congruence. cbn [app].
  rewrite trimmed_over by (simpl; lia).
  by rewrite without_cons_eq, !without_cons_ne, without_nil by congruence.
Qed.

(** Capacity 3: store A, B and C. *)
Lemma fill_three_run (A B C : KT) (vA vB vC : VT) :
  A <> B -> A <> C -> B <> C ->
  update [(A, vA); (B, vB); (C, vC)] (snd (new 3 []))
  = (Return tt, Obj [(A, vA); (B, vB); (C, vC)] (Some 3)).
Proof.
  intros HAB HAC HBC. rewrite (update_run _ _ 3) by done.
  change (snd (new 3 [])) with (Obj (KT:=KT) (VT:=VT) [] (Some 3)).
  cbn [fold_left entries fst snd]. unfold stored.
  rewrite without_nil. cbn [app]. rewrite (trimmed_fits 3 [(A, vA)]) by (simpl; lia).
  rewrite without_cons_ne, without_nil by congruence. cbn [app].
  rewrite (trimmed_fits 3 [(A, vA); (B, vB)]) by (simpl; lia).
  rewrite !without_cons_ne, without_nil by congruence. cbn [app].
  by rewrite trimmed_fits by (simpl; lia).
Qed.

Lemma three_keys_NoDup (A B C : KT) (vA vB vC : VT) :
  A <> B -> A <> C -> B <> C -> NoDup [(A, vA); (B, vB); (C, vC)].*1.
Proof.
  intros HAB HAC HBC. simpl. repeat (apply NoDup_cons; split).
  - rewrite !not_elem_of_cons. repeat split; (congruence || apply not_elem_of_nil).
  - rewrite !not_elem_of_cons. repeat split; (congruence || apply not_elem_of_nil).
  - apply not_elem_of_nil.
  - apply NoDup_nil_2.
Qed.

End Facts.

Section Claims.
Context {KT VT : Type} `{EqDecision KT}.

Implicit Types (self : obj KT VT) (key : KT) (value : VT) (c : Z).

(** C1. capacity bound.  On a cache whose capacity is positive and whose
    size does not exceed it, a [set] call returns and leaves the capacity in
    place and the size within it; so does every sequence of [set] calls, and
    therefore the bound holds after each call of the sequence. *)
Theorem capacity_bound self c :
  _maxSize self = Some c -> 0 < c -> Z.of_nat (length (entries self)) <= c ->
  (forall key value, exists self',
      __setitem__ key value self = (Return tt, self') /\
      _maxSize self' = Some c /\ Z.of_nat (length (entries self')) <= c)
  /\ (forall pairs, exists self',
      update pairs self = (Return tt, self') /\
      _maxSize self' = Some c /\ Z.of_nat (length (entries self')) <= c).
Proof.
  intros Hc Hpos Hlen. split.
  - intros key value. destruct (update_bound [(key, value)] self c Hc Hpos Hlen)
      as (self' & Hrun & Hc' & Hlen').
    exists self'. split; [|done]. simpl in Hrun. unfold bind, ret in Hrun.
    destruct (__setitem__ key value self) as [[[]|e] s]; [done|].
    by injection Hrun.
  - intros pairs. by apply update_bound.
Qed.

(** C2. what [set] does.  The pair goes to the most recent end: a key
    already present leaves its old place and takes the new value, a new key
    is appended.  Then the entry at the least recent end is removed when the
    capacity is positive and the size exceeds it, and only then; nothing
    else is removed, and with capacity 0 nothing is removed at all. *)
Theorem setitem_semantics self c key value :
  _maxSize self = Some c -> NoDup (keys self) ->
  let placed :=
    if bool_decide (key ∈ keys self)
    then without key (entries self) ++ [(key, value)]
    else entries self ++ [(key, value)] in
  let evicts := bool_decide (c > 0) && bool_decide (Z.of_nat (length placed) > c) in
  __setitem__ key value self
  = (Return tt, Obj (if evicts then tail placed else placed) (Some c))
  /\ (c = 0 -> evicts = false).
Proof.
  intros Hc Hnd placed evicts.
  assert (placed = stored key value (entries self)) as Hplaced.
  { unfold placed, stored. case_bool_decide; [done|]. by rewrite without_absent. }
  split.
  - rewrite (setitem_run _ _ _ c) by done.
    rewrite trimmed_tail by by apply stored_NoDup.
    unfold evicts. by rewrite Hplaced.
  - intros ->. unfold evicts. by rewrite bool_decide_false by lia.
Qed.

(** C10. [set] on a key already present.  When the size is within the
    capacity or the capacity is not positive, the call removes nothing: the
    size is unchanged, the other entries keep their keys, values and order,
    and the key sits last with the new value. *)
Theorem setitem_present_keeps_size self c key value :
  _maxSize self = Some c -> NoDup (keys self) ->
  Z.of_nat (length (entries self)) <= c \/ c <= 0 ->
  key ∈ keys self ->
  exists self',
    __setitem__ key value self = (Return tt, self') /\
    entries self' = without key (entries self) ++ [(key, value)] /\
    without key (entries self') = without key (entries self) /\
    length (entries self') = length (entries self) /\
    _maxSize self' = Some c.
Proof.
  intros Hc Hnd Hroom Hin.
  pose proof (stored_length_present key value _ Hnd Hin) as Hlen.
  exists (Obj (stored key value (entries self)) (Some c)).
  assert (trimmed c (stored key value (entries self)) = stored key value (entries self)) as Htr.
  { destruct Hroom; [apply trimmed_fits; lia | by apply trimmed_off]. }
  split; [by rewrite (setitem_run _ _ _ c), Htr|]. simpl.
  split; [done|]. split; [|done].
  unfold stored, without. rewrite filter_app, filter_cons, filter_nil. simpl.
  rewrite decide_False by (intros Hf; by apply Hf).
  rewrite app_nil_r. apply list_filter_filter_l. done.
Qed.

(** C6. [get].  The call raises [KeyError] exactly when the key is
    absent, and then leaves the instance as it was: entries, values, order
    and capacity.  When the key is present the call returns the stored value
    and its one effect is to move the entry to the most recent end. *)
Theorem getitem_semantics self key :
  (fst (__getitem__ key self) = Raise KeyError <-> key ∉ keys self)
  /\ (key ∉ keys self -> __getitem__ key self = (Raise KeyError, self))
  /\ (key ∈ keys self -> exists v,
        (key, v) ∈ entries self /\
        __getitem__ key self
        = (Return v, Obj (without key (entries self) ++ [(key, v)]) (_maxSize self))).
Proof.
  assert (key ∈ keys self -> exists v,
            (key, v) ∈ entries self /\
            __getitem__ key self
            = (Return v, Obj (without key (entries self) ++ [(key, v)]) (_maxSize self)))
    as Hpresent.
  { intros Hin. apply assoc_is_Some in Hin as [v Hv]. exists v.
    split; [by apply assoc_Some_elem | by apply getitem_run_present]. }
  split; [|split]; [|apply getitem_run_absent|done].
  split.
  - intros Hraise Hin. destruct (Hpresent Hin) as (v & _ & Hrun).
    rewrite Hrun in Hraise. discriminate.
  - intros Hout. by rewrite getitem_run_absent.
Qed.

(** C8. [contains].  The membership test returns whether the key is
    present and leaves the instance exactly as it was, so the size, the
    iteration order and the capacity are the same and nothing is evicted. *)
Theorem contains_pure self key :
  __contains__ key self = (Return (bool_decide (key ∈ keys self)), self)
  /\ (fst (__contains__ key self) = Return true <-> key ∈ keys self)
  /\ after (__contains__ key) self = self
  /\ entries (after (__contains__ key) self) = entries self
  /\ length (entries (after (__contains__ key) self)) = length (entries self).
Proof.
  split; [done|]. split; [|done].
  unfold __contains__. simpl. case_bool_decide; split; (done || congruence).
Qed.

(** C7. construction with initial entries.  Whatever the capacity,
    [__init__] given at least one initial pair raises [AttributeError] while
    storing the first pair: [_maxSize] is read before it has been assigned.
    No cache holding the initial entries is produced. *)
Theorem init_with_entries_raises (maxSize : Z) key value (args : list (KT * VT)) :
  new maxSize ((key, value) :: args) = (Raise AttributeError, Obj [(key, value)] None).
Proof.
  assert (update ((key, value) :: args) blank
          = (Raise AttributeError, Obj [(key, value)] None)) as Hupdate.
  { simpl. unfold bind. by rewrite setitem_unset. }
  unfold new, __init__, super__init__, bind. by rewrite Hupdate.
Qed.

(** C4. assigning the capacity.  With enough fuel for the loop, a positive
    new capacity keeps the newest entries that fit and drops the older ones,
    in the order they had; capacity 0 drops nothing.  A cache holding A, B, C
    in that order under capacity 3 holds only C once the capacity is 1. *)
Theorem maxSize_setter_semantics fuel (newCapacity : Z) self :
  NoDup (keys self) -> (length (entries self) < fuel)%nat ->
  (0 < newCapacity ->
     maxSize_setter fuel newCapacity self
     = Some (Return tt,
             Obj (drop (length (entries self) - Z.to_nat newCapacity) (entries self))
                 (Some newCapacity))
     /\ Z.of_nat (length (drop (length (entries self) - Z.to_nat newCapacity)
                               (entries self))) <= newCapacity)
  /\ (newCapacity = 0 ->
       maxSize_setter fuel newCapacity self = Some (Return tt, Obj (entries self) (Some 0)))
  /\ (forall (A B C : KT) (vA vB vC : VT), A <> B -> A <> C -> B <> C ->
       update [(A, vA); (B, vB); (C, vC)] (snd (new 3 []))
       = (Return tt, Obj [(A, vA); (B, vB); (C, vC)] (Some 3))
       /\ maxSize_setter 4 1 (Obj [(A, vA); (B, vB); (C, vC)] (Some 3))
          = Some (Return tt, Obj [(C, vC)] (Some 1))).
Proof.
  intros Hnd Hfuel. split; [|split].
  - intros Hpos. rewrite maxSize_setter_run by done.
    rewrite bool_decide_true by lia. split; [done|]. rewrite length_drop. lia.
  - intros ->. by rewrite maxSize_setter_run.
  - intros A B C vA vB vC HAB HAC HBC. split; [by apply fill_three_run|].
    rewrite maxSize_setter_run; [done| |simpl; lia].
    by apply three_keys_NoDup.
Qed.

(** C3. recency order.  A [get] that finds its key and every [set] leave
    that key last in iteration order.  Hence, over any run of [get] and [set]
    calls, a key [a] accessed after the last access to a key [b] comes after
    [b] whenever both are still present.  With capacity 2, storing A then B,
    reading A and storing C evicts B and keeps A and C. *)
Theorem recency_order self c :
  _maxSize self = Some c -> NoDup (keys self) ->
  (forall key v, assoc key (entries self) = Some v ->
      last (keys (after (__getitem__ key) self)) = Some key)
  /\ (forall key value, last (keys (after (__setitem__ key value) self)) = Some key)
  /\ (forall (earlier later : list access) (x : access) (a b : KT),
        touched x = a -> a <> b -> Forall (fun y => touched y <> b) later ->
        let final := perform_all (earlier ++ x :: later) self in
        a ∈ keys final -> b ∈ keys final -> precedes b a (keys final))
  /\ (forall (A B C : KT) (vA vB vC : VT), A <> B -> A <> C -> B <> C ->
        let final :=
          perform_all [Set_ A vA; Set_ B vB; Get A; Set_ C vC] (snd (new 2 [])) in
        entries final = [(A, vA); (C, vC)] /\ B ∉ keys final).
Proof.
  intros Hc Hnd. split; [|split; [|split]].
  - intros key v Hv. unfold after, keys. rewrite (getitem_run_present _ v) by done.
    simpl. by rewrite fmap_last, stored_last.
  - intros key value. unfold after, keys. rewrite (setitem_run _ _ _ c) by done.
    simpl. by rewrite fmap_last, trimmed_stored_last.
  - intros earlier later x a b Hx Hab Hlater final. subst final a.
    unfold perform_all. rewrite fold_left_app. simpl.
    fold (perform_all earlier self).
    destruct (perform_all_keeps earlier self c Hc Hnd) as [Hc1 Hnd1].
    destruct (perform_keeps x _ c Hc1 Hnd1) as [Hc2 Hnd2].
    apply (perform_all_order later _ c); [done|done|done| |done].
    by apply (perform_touched _ _ c).
  - intros A B C vA vB vC HAB HAC HBC final.
    assert (entries final = [(A, vA); (C, vC)]) as Hfinal.
    { unfold final. by rewrite read_refresh_run. }
    split; [done|]. unfold keys. rewrite Hfinal. simpl.
    rewrite !not_elem_of_cons. repeat split; (congruence || apply not_elem_of_nil).
Qed.

(** C5 (as the code has it). a negative capacity is not rejected.
    Construction without initial entries returns an empty cache that keeps
    the negative number as its capacity, and assigning a negative capacity
    returns, for any fuel, with the number stored and the entries as they
    were.  No [ValueError] is raised on either path. *)
Theorem negative_maxSize_accepted (n : Z) :
  n < 0 ->
  new (KT:=KT) (VT:=VT) n [] = (Return tt, Obj [] (Some n))
  /\ (forall fuel self,
        maxSize_setter fuel n self = Some (Return tt, Obj (entries self) (Some n)))
  /\ fst (new (KT:=KT) (VT:=VT) n []) <> Raise ValueError
  /\ (forall fuel self self', maxSize_setter fuel n self <> Some (Raise ValueError, self')).
Proof.
  intros Hn.
  assert (forall fuel self,
            maxSize_setter fuel n self = Some (Return tt, Obj (entries self) (Some n)))
    as Hset.
  { intros fuel self. unfold maxSize_setter, bind, set_maxSize, get_maxSize. simpl.
    by rewrite bool_decide_false by lia. }
  split; [done|]. split; [done|]. split; [done|].
  intros fuel self self'. by rewrite Hset.
Qed.

(** C9. a negative capacity means no bound.  Construction with it
    succeeds, assigning it succeeds and evicts nothing, and afterwards no
    [set] call evicts: the call only moves or appends its own key, so over
    any run of [set] calls every key stays present and the size never
    shrinks. *)
Theorem negative_maxSize_unbounded (n : Z) :
  n < 0 ->
  fst (new (KT:=KT) (VT:=VT) n []) = Return tt
  /\ _maxSize (snd (new (KT:=KT) (VT:=VT) n [])) = Some n
  /\ (forall fuel self, exists self',
        maxSize_setter fuel n self = Some (Return tt, self') /\
        entries self' = entries self /\ _maxSize self' = Some n)
  /\ (forall self key value, _maxSize self = Some n ->
        __setitem__ key value self
        = (Return tt, Obj (without key (entries self) ++ [(key, value)]) (Some n)))
  /\ (forall self pairs, _maxSize self = Some n -> exists self',
        update pairs self = (Return tt, self') /\
        _maxSize self' = Some n /\
        (forall k, k ∈ keys self -> k ∈ keys self') /\
        (NoDup (keys self) -> (length (entries self) <= length (entries self'))%nat)).
Proof.
  intros Hn. split; [done|]. split; [done|]. split; [|split].
  - intros fuel self. exists (Obj (entries self) (Some n)).
    split; [|done]. unfold maxSize_setter, bind, set_maxSize, get_maxSize. simpl.
    by rewrite bool_decide_false by lia.
  - intros self key value Hc. rewrite (setitem_run _ _ _ n) by done.
    by rewrite trimmed_off by lia.
  - intros self pairs Hc. apply update_unbounded; [done|lia].
Qed.

End Claims.

(** * The theorems at sample instances *)

Local Open Scope string_scope.
Local Open Scope list_scope.

Lemma full2_NoDup : NoDup (keys full2).
Proof. apply (bool_decide_unpack _). vm_compute. exact I. Defined.

Lemma full3_NoDup : NoDup (keys full3).
Proof. apply (bool_decide_unpack _). vm_compute. exact I. Defined.

Lemma capacity_bound_witness :
  _maxSize full2 = Some 2 /\ 0 < 2 /\ Z.of_nat (length (entries full2)) <= 2
  /\ (exists self', __setitem__ "C" 3 full2 = (Return tt, self') /\
                    _maxSize self' = Some 2 /\ Z.of_nat (length (entries self')) <= 2)
  /\ (exists self', update [("C", 3); ("A", 4); ("D", 5)] full2 = (Return tt, self') /\
                    _maxSize self' = Some 2 /\ Z.of_nat (length (entries self')) <= 2).
Proof.
  assert (_maxSize full2 = Some 2) as H1 by reflexivity.
  assert (0 < 2) as H2 by lia.
  assert (Z.of_nat (length (entries full2)) <= 2) as H3 by (simpl; lia).
  destruct (capacity_bound full2 2 H1 H2 H3) as [Hone Hall].
  split; [exact H1|]. split; [exact H2|]. split; [exact H3|].
  split; [apply Hone | apply Hall].
Defined.

Lemma setitem_semantics_witness :
  _maxSize full2 = Some 2 /\ NoDup (keys full2)
  /\ __setitem__ "C" 3 full2 = (Return tt, cache 2 [("B", 2); ("C", 3)])
  /\ __setitem__ "A" 7 full2 = (Return tt, cache 2 [("B", 2); ("A", 7)]).
Proof.
  split; [reflexivity|]. split; [exact full2_NoDup|]. split.
  - exact (proj1 (setitem_semantics full2 2 "C" 3 eq_refl full2_NoDup)).
  - exact (proj1 (setitem_semantics full2 2 "A" 7 eq_refl full2_NoDup)).
Defined.

Lemma recency_order_witness :
  _maxSize full3 = Some 3 /\ NoDup (keys full3)
  /\ last (keys (after (__getitem__ "A") full3)) = Some "A"
  /\ last (keys (after (__setitem__ "B" 9) full3)) = Some "B"
  /\ precedes "B" "A" (keys (perform_all ([Get "B"] ++ Get "A" :: [Set_ "D" 4]) full3)).
Proof.
  destruct (recency_order full3 3 eq_refl full3_NoDup) as (Hget & Hset & Htrace & _).
  split; [reflexivity|]. split; [exact full3_NoDup|].
  split; [apply (Hget "A" 1); reflexivity|]. split; [apply Hset|].
  apply (Htrace [Get "B"] [Set_ "D" 4] (Get "A") "A" "B").
  - reflexivity.
  - discriminate.
  - repeat constructor. discriminate.
  - apply (bool_decide_unpack _). vm_compute. exact I.
  - apply (bool_decide_unpack _). vm_compute. exact I.
Defined.

Lemma getitem_semantics_witness :
  "Z" ∉ keys full2 /\ __getitem__ "Z" full2 = (Raise KeyError, full2)
  /\ "A" ∈ keys full2
  /\ exists v, ("A", v) ∈ entries full2 /\
       __getitem__ "A" full2
       = (Return v, Obj (without "A" (entries full2) ++ [("A", v)]) (_maxSize full2)).
Proof.
  assert ("Z" ∉ keys full2) as Hout by (apply (bool_decide_unpack _); vm_compute; exact I).
  assert ("A" ∈ keys full2) as Hin by (apply (bool_decide_unpack _); vm_compute; exact I).
  destruct (getitem_semantics full2 "Z") as (_ & Habsent & _).
  destruct (getitem_semantics full2 "A") as (_ & _ & Hpresent).
  split; [exact Hout|]. split; [exact (Habsent Hout)|]. split; [exact Hin|].
  exact (Hpresent Hin).
Defined.

Lemma maxSize_setter_semantics_witness :
  NoDup (keys full3) /\ (length (entries full3) < 4)%nat
  /\ maxSize_setter 4 1 full3 = Some (Return tt, cache 1 [("C", 3)])
  /\ maxSize_setter 4 2 full3 = Some (Return tt, cache 2 [("B", 2); ("C", 3)])
  /\ maxSize_setter 4 0 full3 = Some (Return tt, cache 0 (entries full3)).
Proof.
  assert (length (entries full3) < 4)%nat as Hfuel by (simpl; lia).
  split; [exact full3_NoDup|]. split; [exact Hfuel|]. split; [|split].
  - destruct (maxSize_setter_semantics 4 1 full3 full3_NoDup Hfuel) as (Hpos & _ & _).
    apply Hpos. lia.
  - destruct (maxSize_setter_semantics 4 2 full3 full3_NoDup Hfuel) as (Hpos & _ & _).
    apply Hpos. lia.
  - destruct (maxSize_setter_semantics 4 0 full3 full3_NoDup Hfuel) as (_ & Hzero & _).
    apply Hzero. reflexivity.
Defined.

(** C5 as the spec words it fails: a negative capacity raises nothing, at
    construction or at assignment. *)
Lemma negative_maxSize_not_rejected :
  new (KT:=string) (VT:=Z) (-1) [] = (Return tt, Obj [] (Some (-1)))
  /\ fst (new (KT:=string) (VT:=Z) (-1) []) <> Raise ValueError
  /\ maxSize_setter 3 (-1) full2 = Some (Return tt, cache (-1) (entries full2))
  /\ maxSize_setter 3 (-1) full2 <> Some (Raise ValueError, full2).
Proof. repeat split; discriminate. Qed.

Lemma negative_maxSize_accepted_witness :
  -1 < 0
  /\ new (KT:=string) (VT:=Z) (-1) [] = (Return tt, Obj [] (Some (-1)))
  /\ maxSize_setter 0 (-1) full2 = Some (Return tt, cache (-1) (entries full2)).
Proof.
  assert (-1 < 0) as Hn by lia.
  destruct (negative_maxSize_accepted (KT:=string) (VT:=Z) (-1) Hn) as (Hnew & Hset & _).
  split; [exact Hn|]. split; [exact Hnew | apply Hset].
Defined.

Lemma negative_maxSize_unbounded_witness :
  -3 < 0
  /\ fst (new (KT:=string) (VT:=Z) (-3) []) = Return tt
  /\ __setitem__ "C" 3 (cache (-3) (entries full2))
     = (Return tt, cache (-3) [("A", 1); ("B", 2); ("C", 3)]).
Proof.
  assert (-3 < 0) as Hn by lia.
  destruct (negative_maxSize_unbounded (KT:=string) (VT:=Z) (-3) Hn)
    as (Hnew & _ & _ & Hset & _).
  split; [exact Hn|]. split; [exact Hnew|].
  apply (Hset (cache (-3) (entries full2)) "C" 3). reflexivity.
Defined.

Lemma setitem_present_keeps_size_witness :
  _maxSize full2 = Some 2 /\ NoDup (keys full2)
  /\ (Z.of_nat (length (entries full2)) <= 2 \/ 2 <= 0)
  /\ "A" ∈ keys full2
  /\ exists self',
       __setitem__ "A" 7 full2 = (Return tt, self') /\
       entries self' = without "A" (entries full2) ++ [("A", 7)] /\
       without "A" (entries self') = without "A" (entries full2) /\
       length (entries self') = length (entries full2) /\
       _maxSize self' = Some 2.
Proof.
  assert (Z.of_nat (length (entries full2)) <= 2 \/ 2 <= 0) as Hroom by (left; simpl; lia).
  assert ("A" ∈ keys full2) as Hin by (apply (bool_decide_unpack _); vm_compute; exact I).
  split; [reflexivity|]. split; [exact full2_NoDup|]. split; [exact Hroom|].
  split; [exact Hin|].
  exact (setitem_present_keeps_size full2 2 "A" 7 eq_refl full2_NoDup Hroom Hin).
Defined.

(** * More of the module *)

(** ** Lookups in the entries *)

Section Lookups.
Context {KT VT : Type} `{EqDecision KT}.

Implicit Types (l : list (KT * VT)) (key k : KT) (value v : VT) (self : obj KT VT).

Lemma assoc_app key l1 l2 :
  assoc key (l1 ++ l2) = match assoc key l1 with Some v => Some v | None => assoc key l2 end.
Proof.
  induction l1 as [|[k v] l1 IH]; simpl; [done|].
  by destruct (decide (k = key)).
Qed.

Lemma assoc_without_eq key l : assoc key (without key l) = None.
Proof. apply assoc_None, without_gone. Qed.

Lemma assoc_without_ne key k l : k <> key -> assoc k (without key l) = assoc k l.
Proof.
  intros Hne. induction l as [|[k0 v0] l IH]; [done|].
  destruct (decide (k0 = key)) as [->|Hk0].
  - rewrite without_cons_eq, IH. simpl. by rewrite decide_False by congruence.
  - rewrite without_cons_ne by done. simpl. by rewrite IH.
Qed.

Lemma assoc_stored key value k l :
  assoc k (stored key value l) = if decide (k = key) then Some value else assoc k l.
Proof.
  unfold stored. rewrite assoc_app. destruct (decide (k = key)) as [->|Hne].
  - rewrite assoc_without_eq. simpl. by rewrite decide_True.
  - rewrite assoc_without_ne by done. simpl. rewrite decide_False by congruence.
    by destruct (assoc k l).
Qed.

(** An entry that sits last, under unique keys, is where a refresh puts it. *)
Lemma stored_fixed key value l :
  NoDup l.*1 -> last l = Some (key, value) ->
  assoc key l = Some value /\ stored key value l = l.
Proof.
  intros Hnd Hlast. apply last_Some in Hlast as [l' ->].
  rewrite fmap_app in Hnd. apply NoDup_app in Hnd as (_ & Hdisj & _).
  assert (key ∉ l'.*1) as Hout.
  { intros Hin. apply (Hdisj key Hin). simpl. apply list_elem_of_here. }
  split.
  - rewrite assoc_app. apply assoc_None in Hout. rewrite Hout. apply assoc_cons_eq.
  - unfold stored, without. rewrite filter_app, filter_cons, filter_nil. simpl.
    rewrite decide_False by (intros Hf; by apply Hf).
    rewrite app_nil_r. fold (without key l'). by rewrite without_absent.
Qed.

Lemma stored_perm key v l :
  NoDup l.*1 -> assoc key l = Some v -> stored key v l ≡ₚ l.
Proof.
  intros Hnd Hv. unfold stored. rewrite <- Permutation_cons_append.
  induction l as [|[k0 v0] l IH]; [done|].
  rewrite fmap_cons in Hnd. apply NoDup_cons in Hnd as [Hk0 Hnd].
  simpl in Hv. destruct (decide (k0 = key)) as [->|Hne].
  - injection Hv as ->. rewrite without_cons_eq. by rewrite without_absent.
  - rewrite without_cons_ne by done. rewrite Permutation_swap. by rewrite IH.
Qed.

Lemma assoc_tail k l :
  NoDup l.*1 -> k ∈ (tail l).*1 -> assoc k (tail l) = assoc k l.
Proof.
  destruct l as [|[k0 v0] l]; [done|]. simpl.
  intros Hnd Hin. apply NoDup_cons in Hnd as [Hk0 _].
  rewrite decide_False; [done|]. by intros ->.
Qed.

End Lookups.

(** ** The cache, beyond single calls *)

Section Cache.
Context {KT VT : Type} `{EqDecision KT}.

Implicit Types (l : list (KT * VT)) (key k : KT) (value v : VT) (self : obj KT VT).

(** X1. storing then reading.  After [d[key] = value] the lookup [d[key]]
    returns [value] and changes nothing: the key is already the most recent
    one, and the assignment never evicts the pair it has just stored. *)
Theorem setitem_then_getitem self (c : Z) key value :
  _maxSize self = Some c -> NoDup (keys self) ->
  __getitem__ key (after (__setitem__ key value) self)
  = (Return value, after (__setitem__ key value) self).
Proof.
  intros Hc Hnd. unfold after. rewrite (setitem_run _ _ _ c) by done. simpl.
  destruct (stored_fixed key value (trimmed c (stored key value (entries self))))
    as [Hv Hfix].
  - by apply trimmed_NoDup, stored_NoDup.
  - by apply trimmed_stored_last.
  - rewrite (getitem_run_present _ value) by done. simpl. by rewrite Hfix.
Qed.

(** X2. what an assignment does to lookups.  After [d[key] = value] the key
    maps to [value]; no other key gains or changes a value; and when nothing
    is evicted (capacity not positive, or room left) every other key keeps its
    value.  When a new key arrives in a cache that is full, the oldest key is
    gone: looking it up raises [KeyError]. *)
Theorem setitem_lookups self (c : Z) key value :
  _maxSize self = Some c -> NoDup (keys self) ->
  let self' := after (__setitem__ key value) self in
  assoc key (entries self') = Some value
  /\ (forall k v, k <> key -> assoc k (entries self') = Some v ->
        assoc k (entries self) = Some v)
  /\ (c <= 0 \/ Z.of_nat (length (entries self)) < c ->
      forall k, k <> key -> assoc k (entries self') = assoc k (entries self))
  /\ (0 < c -> Z.of_nat (length (entries self)) = c -> key ∉ keys self ->
      forall oldest v rest, entries self = (oldest, v) :: rest ->
        __getitem__ oldest self' = (Raise KeyError, self')).
Proof.
  intros Hc Hnd self'.
  assert (entries self' = trimmed c (stored key value (entries self))) as Hself'.
  { unfold self', after. by rewrite (setitem_run _ _ _ c). }
  pose proof (stored_NoDup key value _ Hnd) as Hnd'.
  split; [|split; [|split]].
  - rewrite Hself'.
    by destruct (stored_fixed key value _ (trimmed_NoDup c _ Hnd')
                   (trimmed_stored_last c key value _ Hnd)).
  - intros k v Hne Hv. rewrite Hself' in Hv.
    assert (k ∈ (trimmed c (stored key value (entries self))).*1) as Hin.
    { apply assoc_is_Some. by exists v. }
    rewrite trimmed_tail in Hv, Hin by done.
    destruct (bool_decide (c > 0) && bool_decide (_ > c)).
    + rewrite assoc_tail in Hv by done. rewrite assoc_stored in Hv.
      by rewrite decide_False in Hv.
    + rewrite assoc_stored in Hv. by rewrite decide_False in Hv.
  - intros Hroom k Hne. rewrite Hself'.
    pose proof (stored_length_le key value (entries self)) as Hle.
    rewrite (trimmed_tail c) by done.
    replace (bool_decide (c > 0) && bool_decide (Z.of_nat (length (stored key value (entries self))) > c))
      with false.
    + rewrite assoc_stored. by rewrite decide_False.
    + symmetry. destruct Hroom.
      * by rewrite bool_decide_false by lia.
      * rewrite (bool_decide_false (_ > c)) by lia. apply andb_false_r.
  - intros Hpos Hfull Hout oldest v rest Hl.
    apply getitem_run_absent. unfold keys. rewrite Hself'.
    unfold stored. rewrite without_absent by done. rewrite Hl. simpl.
    rewrite trimmed_over; [|done|rewrite Hl in Hfull; simpl in *; rewrite length_app; simpl; lia].
    apply without_gone.
Qed.

(** X3. a lookup only reorders.  A [d[key]] that finds its key leaves the
    same pairs in the cache, in another order at most, so that every key
    still maps to what it mapped to; repeating the lookup returns the same
    value and changes nothing more. *)
Theorem getitem_reorders self key v :
  NoDup (keys self) -> assoc key (entries self) = Some v ->
  let self' := after (__getitem__ key) self in
  entries self' ≡ₚ entries self
  /\ (forall k, assoc k (entries self') = assoc k (entries self))
  /\ _maxSize self' = _maxSize self
  /\ __getitem__ key self' = (Return v, self').
Proof.
  intros Hnd Hv self'.
  assert (self' = Obj (stored key v (entries self)) (_maxSize self)) as ->.
  { unfold self', after. by rewrite (getitem_run_present _ v). }
  simpl. split; [by apply stored_perm|]. split; [|split; [done|]].
  - intros k. rewrite assoc_stored. by destruct (decide (k = key)) as [->|].
  - destruct (stored_fixed key v (stored key v (entries self))) as [Hv' Hfix].
    + by apply stored_NoDup.
    + apply stored_last.
    + rewrite (getitem_run_present _ v) by done. simpl. by rewrite Hfix.
Qed.

End Cache.

(** ** Runs of calls *)

Section Runs.
Context {KT VT : Type} `{EqDecision KT}.

Implicit Types (l pairs : list (KT * VT)) (key k : KT) (value v : VT) (self : obj KT VT).

Lemma fresh_stored key value l : key ∉ l.*1 -> stored key value l = l ++ [(key, value)].
Proof. intros Hout. unfold stored. by rewrite without_absent. Qed.

Lemma NoDup_snoc_keys l key value :
  NoDup (l ++ [(key, value)]).*1 -> NoDup l.*1 /\ key ∉ l.*1.
Proof.
  rewrite fmap_app. intros (Hnd & Hdisj & _)%NoDup_app. split; [done|].
  intros Hin. apply (Hdisj key Hin). simpl. apply list_elem_of_here.
Qed.

Lemma fifo_fold (c : Z) pairs :
  0 < c -> NoDup pairs.*1 ->
  fold_left (fun l kv => trimmed c (stored kv.1 kv.2 l)) pairs []
  = drop (length pairs - Z.to_nat c) pairs.
Proof.
  intros Hc. induction pairs as [|[k v] p IH] using rev_ind; intros Hnd; [done|].
  apply NoDup_snoc_keys in Hnd as [Hnd Hk].
  rewrite fold_left_app. simpl. rewrite IH by done.
  set (d := drop (length p - Z.to_nat c) p).
  assert (length d = (length p - (length p - Z.to_nat c))%nat) as Hd
    by apply length_drop.
  assert (k ∉ d.*1) as Hkd.
  { intros Hin. apply Hk. unfold d in Hin. rewrite fmap_drop in Hin.
    by eapply subseteq_drop. }
  rewrite fresh_stored by done.
  assert (NoDup (d ++ [(k, v)]).*1) as Hnd'.
  { rewrite fmap_app. apply NoDup_app. split; [|split].
    - unfold d. rewrite fmap_drop. eapply sublist_NoDup; [done|apply sublist_drop].
    - intros x Hx Hx'. simpl in Hx'. apply list_elem_of_singleton in Hx'. by subst x.
    - apply NoDup_singleton. }
  rewrite trimmed_tail by done. rewrite !length_app. simpl.
  rewrite bool_decide_true by lia. simpl.
  case_bool_decide as Hover.
  - assert (Z.to_nat c <= length p)%nat as Hle by lia.
    replace (length p + 1 - Z.to_nat c)%nat with (S (length p - Z.to_nat c)) by lia.
    rewrite drop_app_le by lia.
    destruct d as [|x d'] eqn:Ed; [simpl in Hd; lia|]. simpl.
    f_equal. change d' with (drop 1 (x :: d')). rewrite <- Ed. unfold d.
    rewrite drop_drop. f_equal. lia.
  - replace (length p + 1 - Z.to_nat c)%nat with 0%nat by lia.
    unfold d. replace (length p - Z.to_nat c)%nat with 0%nat by lia. done.
Qed.

Lemma unbounded_fold (c : Z) pairs :
  c <= 0 -> NoDup pairs.*1 ->
  fold_left (fun l kv => trimmed c (stored kv.1 kv.2 l)) pairs [] = pairs.
Proof.
  intros Hc. induction pairs as [|[k v] p IH] using rev_ind; intros Hnd; [done|].
  apply NoDup_snoc_keys in Hnd as [Hnd Hk].
  rewrite fold_left_app. simpl. rewrite IH by done.
  rewrite trimmed_off by done. by apply fresh_stored.
Qed.

(** X4. first in, first out.  Assigning pairs with distinct keys to a fresh
    cache, with no lookup in between, leaves the newest pairs that a positive
    capacity has room for, in the order of assignment; under a capacity that
    is not positive it leaves them all. *)
Theorem fresh_cache_keeps_newest (c : Z) pairs :
  NoDup pairs.*1 ->
  update pairs (snd (new c []))
  = (Return tt,
     Obj (if bool_decide (c > 0) then drop (length pairs - Z.to_nat c) pairs else pairs)
         (Some c)).
Proof.
  intros Hnd. rewrite (update_run _ _ c) by done. simpl.
  case_bool_decide.
  - by rewrite fifo_fold by (lia || done).
  - by rewrite unbounded_fold by (lia || done).
Qed.

Lemma step_sound (x : call) self :
  sound self -> exists self', step x self = Some self' /\ sound self'.
Proof.
  intros (Hnd & c & Hc & Hsize). destruct x as [key|key value|value]; simpl.
  - eexists. split; [done|]. unfold after.
    destruct (assoc key (entries self)) as [v|] eqn:Hv.
    + rewrite (getitem_run_present _ v) by done. simpl.
      split; [by apply stored_NoDup|]. exists c. split; [done|]. simpl.
      rewrite stored_length_present; [done|done|]. apply assoc_is_Some. by exists v.
    + rewrite getitem_run_absent by by apply assoc_None.
      split; [done|]. by exists c.
  - eexists. split; [done|]. unfold after. rewrite (setitem_run _ _ _ c) by done. simpl.
    split; [by apply trimmed_NoDup, stored_NoDup|]. exists c. split; [done|]. simpl.
    intros Hpos. apply trimmed_length_le; [done|].
    pose proof (stored_length_le key value (entries self)). specialize (Hsize Hpos). lia.
  - rewrite maxSize_setter_run by (done || lia). simpl. eexists. split; [done|].
    split.
    + unfold keys. simpl. case_bool_decide; [|done]. rewrite fmap_drop.
      eapply sublist_NoDup; [done|apply sublist_drop].
    + exists value. split; [done|]. simpl. intros Hpos.
      rewrite bool_decide_true by lia. rewrite length_drop. lia.
Qed.

(** X5. what holds of every cache in use.  Whatever lookups, assignments
    and capacity changes follow the construction of an empty cache, in any
    number and order, each call comes to an end, the keys stay unique, the
    capacity is the one last assigned, and a positive capacity bounds the
    number of entries. *)
Theorem reachable_sound (m : Z) (xs : list (call (KT:=KT) (VT:=VT))) :
  exists self', steps xs (snd (new m [])) = Some self' /\ sound self'.
Proof.
  assert (sound (snd (new (KT:=KT) (VT:=VT) m []))) as Hstart.
  { split; [apply NoDup_nil_2|]. exists m. split; [done|]. simpl. lia. }
  revert Hstart. generalize (snd (new (KT:=KT) (VT:=VT) m [])).
  induction xs as [|x xs IH]; intros self Hsound.
  - by exists self.
  - simpl. destruct (step_sound x self Hsound) as (self1 & -> & Hsound1).
    by apply IH.
Qed.

(** X6. changing the capacity again.  A new capacity that is not positive,
    or that the entries fit in, leaves the entries alone.  Lowering the
    capacity in two steps gives what lowering it at once to the smaller value
    gives. *)
Theorem maxSize_setter_composes fuel self (a b : Z) :
  NoDup (keys self) -> (length (entries self) < fuel)%nat ->
  (forall value : Z, value <= 0 \/ Z.of_nat (length (entries self)) <= value ->
     maxSize_setter fuel value self = Some (Return tt, Obj (entries self) (Some value)))
  /\ (0 < b <= a -> exists self1,
        maxSize_setter fuel a self = Some (Return tt, self1) /\
        maxSize_setter fuel b self1 = maxSize_setter fuel b self).
Proof.
  intros Hnd Hfuel. split.
  - intros value Hfit. rewrite maxSize_setter_run by done.
    case_bool_decide; [|done].
    replace (length (entries self) - Z.to_nat value)%nat with 0%nat by lia. done.
  - intros Hab. eexists. split; [by apply maxSize_setter_run|].
    rewrite !maxSize_setter_run; simpl.
    + rewrite !bool_decide_true by lia. rewrite drop_drop, length_drop.
      match goal with
      | |- context [drop ?n (entries self)] =>
          replace n with (length (entries self) - Z.to_nat b)%nat by lia
      end.
      done.
    + done.
    + done.
    + unfold keys. simpl. rewrite bool_decide_true by lia. rewrite fmap_drop.
      eapply sublist_NoDup; [done|apply sublist_drop].
    + rewrite bool_decide_true by lia. rewrite length_drop. lia.
Qed.

End Runs.

(** ** The numeric helpers *)

(** X7. [sign].  The result is the usual sign of an integer: -1, 0 or 1, zero
    at zero only; the sign times the absolute value gives the number back,
    negation flips it, and it is multiplicative. *)
Theorem sign_is_sgn (x y : Z) :
  sign x = Z.sgn x
  /\ -1 <= sign x <= 1
  /\ (sign x = 0 <-> x = 0)
  /\ sign x * Z.abs x = x
  /\ sign (- x) = - sign x
  /\ sign (x * y) = sign x * sign y.
Proof.
  assert (forall z, sign z = Z.sgn z) as Hsgn.
  { intros z. unfold sign. do 2 case_bool_decide; simpl; lia. }
  rewrite !Hsgn. split; [done|]. split; [lia|]. split; [apply Z.sgn_null_iff|].
  split; [rewrite Z.mul_comm; apply Z.abs_sgn|].
  split; [apply Z.sgn_opp | apply Z.sgn_mul].
Qed.

(** X8. [nonZeroSign].  The result is never 0: it is 1 at zero and the sign
    elsewhere, so that it, too, gives the number back when multiplied by the
    absolute value. *)
Theorem nonZeroSign_never_zero (x : Z) :
  nonZeroSign x <> 0
  /\ nonZeroSign x = (if decide (x = 0) then 1 else sign x)
  /\ nonZeroSign x * Z.abs x = x
  /\ nonZeroSign x * nonZeroSign x = 1.
Proof.
  unfold nonZeroSign, sign. destruct (decide (x = 0)) as [->|Hx].
  - repeat split; done.
  - repeat case_bool_decide; simpl; repeat split; lia.
Qed.

(** X9. [clamp] with bounds in order.  The result lies between the bounds,
    is the argument itself exactly when the argument lies between them, and
    clamping again changes nothing. *)
Theorem clamp_in_range (x minimum maximum : Z) :
  minimum <= maximum ->
  minimum <= clamp x minimum maximum <= maximum
  /\ (clamp x minimum maximum = x <-> minimum <= x <= maximum)
  /\ (x < minimum -> clamp x minimum maximum = minimum)
  /\ (maximum < x -> clamp x minimum maximum = maximum)
  /\ clamp (clamp x minimum maximum) minimum maximum = clamp x minimum maximum.
Proof.
  intros Hord. unfold clamp, py_max, py_min.
  repeat case_bool_decide; repeat split; intros; lia.
Qed.

(** X10. [clamp] with bounds out of order.  When the lower bound exceeds the
    upper one the result is the lower bound, whatever the argument. *)
Theorem clamp_crossed_bounds (x minimum maximum : Z) :
  maximum < minimum -> clamp x minimum maximum = minimum.
Proof.
  intros Hcross. unfold clamp, py_max, py_min. repeat case_bool_decide; lia.
Qed.

(** X11. [clamp] keeps the order of its arguments, for any bounds, and is
    the maximum of the lower bound and the minimum of the upper bound and the
    argument. *)
Theorem clamp_monotone (x y minimum maximum : Z) :
  x <= y ->
  clamp x minimum maximum <= clamp y minimum maximum
  /\ clamp x minimum maximum = Z.max minimum (Z.min maximum x).
Proof.
  intros Hxy. unfold clamp, py_max, py_min. repeat case_bool_decide; lia.
Qed.

(** ** [eagerAll] and [eagerAny] *)

Section Eager.
Context {W : Type}.

Implicit Types (iterable : list (element (W:=W))) (w : W).

Lemma comprehension_harmless iterable w :
  harmless iterable ->
  exists results,
    comprehension iterable w = (Return results, exhausted iterable w)
    /\ length results = length iterable
    /\ fst (lazy_all iterable w) = Return (all_ results)
    /\ fst (lazy_any iterable w) = Return (any_ results).
Proof.
  intros Hh. revert w. induction Hh as [|x rest Hx _ IH]; intros w.
  - by exists [].
  - destruct (Hx w) as (b & w1 & Hrun). destruct (IH w1) as (results & Hc & Hlen & Hall & Hany).
    exists (b :: results). simpl. rewrite Hrun. simpl. rewrite Hc.
    split; [done|]. split; [by rewrite Hlen|].
    destruct b; simpl; [by rewrite Hall | by rewrite Hany].
Qed.

(** X12. [eagerAll] asks for every element.  When no element raises, the
    call returns what the builtin [all] returns on the same iterable, and
    leaves things as they are once every element has been produced, also
    when an early element is false. *)
Theorem eagerAll_exhausts iterable w :
  harmless iterable ->
  exists b,
    eagerAll iterable w = (Return b, exhausted iterable w)
    /\ fst (lazy_all iterable w) = Return b.
Proof.
  intros Hh. destruct (comprehension_harmless iterable w Hh) as (results & Hc & _ & Hall & _).
  exists (all_ results). unfold eagerAll. by rewrite Hc.
Qed.

(** X13. [eagerAny] asks for every element.  When no element raises, the
    call returns what the builtin [any] returns on the same iterable, and
    leaves things as they are once every element has been produced, also
    when an early element is true. *)
Theorem eagerAny_exhausts iterable w :
  harmless iterable ->
  exists b,
    eagerAny iterable w = (Return b, exhausted iterable w)
    /\ fst (lazy_any iterable w) = Return b.
Proof.
  intros Hh. destruct (comprehension_harmless iterable w Hh) as (results & Hc & _ & _ & Hany).
  exists (any_ results). unfold eagerAny. by rewrite Hc.
Qed.

End Eager.

(** ** [withRetries] *)

Section Retrying.
Context {W T : Type}.

Implicit Types (function : W -> outcome T * W) (exceptionType : exception -> bool)
  (retries : Z) (onRetry : exception -> Z -> W -> outcome unit * W) (reRaise : bool) (w : W).

(** X14. [withRetries] comes to an end when [retries] is not negative.
    Whatever [function] and [onRetry] do, the loop needs no more turns than
    [retries + 1]: every such bound gives one and the same result. *)
Theorem withRetries_terminates function exceptionType retries onRetry reRaise w :
  0 <= retries ->
  exists result, forall fuel, (Z.to_nat retries < fuel)%nat ->
    withRetries fuel function exceptionType retries onRetry reRaise w = Some result.
Proof.
  intros Hpos. remember (Z.to_nat retries) as n eqn:Hn.
  revert retries w Hpos Hn. induction n as [|n IH]; intros retries w Hpos Hn.
  - assert (retries = 0) as -> by lia.
    destruct (function w) as [[v|e] w1] eqn:Hf.
    + exists (Return (Some v), w1). intros [|fuel] Hfuel; [lia|]. simpl. by rewrite Hf.
    + exists (if exceptionType e
              then if reRaise then (Raise e, w1) else (Return None, w1)
              else (Raise e, w1)).
      intros [|fuel] Hfuel; [lia|]. simpl. rewrite Hf.
      destruct (exceptionType e); [by destruct reRaise | done].
  - destruct (function w) as [[v|e] w1] eqn:Hf.
    + exists (Return (Some v), w1). intros [|fuel] Hfuel; [lia|]. simpl. by rewrite Hf.
    + destruct (exceptionType e) eqn:He.
      * destruct (onRetry e retries w1) as [[[]|e'] w2] eqn:Hr.
        -- destruct (IH (retries - 1) w2) as [result Hresult]; [lia|lia|].
           exists result. intros [|fuel] Hfuel; [lia|]. simpl. rewrite Hf, He.
           rewrite bool_decide_false by lia. rewrite Hr. apply Hresult. lia.
        -- exists (Raise e', w2). intros [|fuel] Hfuel; [lia|]. simpl. rewrite Hf, He.
           rewrite bool_decide_false by lia. by rewrite Hr.
      * exists (Raise e, w1). intros [|fuel] Hfuel; [lia|]. simpl. by rewrite Hf, He.
Qed.

(** X15. [withRetries] with negative [retries] never gives up.  When
    [function] fails every time with an exception of the type asked for and
    [onRetry] returns, the count moves away from 0 and the loop does not end:
    no bound on its turns is enough. *)
Theorem withRetries_negative_diverges function exceptionType retries onRetry reRaise :
  retries < 0 -> always_fails function exceptionType -> always_returns onRetry ->
  forall fuel w, withRetries fuel function exceptionType retries onRetry reRaise w = None.
Proof.
  intros Hneg Hfails Hreturns fuel. revert retries Hneg.
  induction fuel as [|fuel IH]; intros retries Hneg w; [done|].
  simpl. destruct (Hfails w) as (e & w1 & -> & ->).
  rewrite bool_decide_false by lia.
  destruct (Hreturns e retries w1) as [w2 ->]. apply IH. lia.
Qed.

(** X16. [withRetries] when every attempt fails.  With [retries] not
    negative, a [function] that fails every time with an exception of the
    type asked for, and an [onRetry] that returns, the call ends by raising
    such an exception when [reRaise] is set and by returning [None] when it
    is not. *)
Theorem withRetries_exhausted fuel function exceptionType retries onRetry reRaise w :
  0 <= retries -> (Z.to_nat retries < fuel)%nat ->
  always_fails function exceptionType -> always_returns onRetry ->
  exists e w',
    exceptionType e = true /\
    withRetries fuel function exceptionType retries onRetry reRaise w
    = Some (if reRaise then Raise e else Return None, w').
Proof.
  intros Hpos Hfuel Hfails Hreturns. revert retries w Hpos Hfuel.
  induction fuel as [|fuel IH]; intros retries w Hpos Hfuel; [lia|].
  simpl. destruct (Hfails w) as (e & w1 & -> & He). rewrite He.
  case_bool_decide as Hz.
  - exists e, w1. split; [done|]. by destruct reRaise.
  - destruct (Hreturns e retries w1) as [w2 ->]. apply IH; lia.
Qed.

End Retrying.

Lemma flaky_run {T : Type} (k : nat) (v : T) (e : exception)
    (exceptionType : exception -> bool) (reRaise : bool) (d : nat) :
  exceptionType e = true ->
  forall (i : nat) (log : list Z) (retries : Z) (fuel : nat),
    (i + d = k)%nat -> 0 <= retries ->
    (Nat.min d (Z.to_nat retries) < fuel)%nat ->
    withRetries fuel (flaky k v e) exceptionType retries note reRaise (i, log)
    = Some (if decide (d <= Z.to_nat retries)%nat then Return (Some v)
            else if reRaise then Raise e else Return None,
            (S (i + Nat.min d (Z.to_nat retries)),
             log ++ countdown retries (Nat.min d (Z.to_nat retries)))).
Proof.
  intros He. induction d as [|d IH]; intros i log retries fuel Hi Hpos Hfuel.
  - destruct fuel as [|fuel]; [lia|]. simpl.
    rewrite bool_decide_false by lia.
    by rewrite Nat.add_0_r, app_nil_r.
  - destruct fuel as [|fuel]; [simpl in Hfuel; lia|].
    assert (flaky k v e (i, log) = (Raise e, (S i, log))) as Hfails.
    { unfold flaky. by rewrite bool_decide_true by lia. }
    cbn [withRetries]. rewrite Hfails, He.
    case_bool_decide as Hz.
    + subst retries. simpl. rewrite Nat.add_0_r, app_nil_r. by destruct reRaise.
    + change (note e retries (S i, log)) with (Return tt, (S i, log ++ [retries])).
      cbv beta iota.
      rewrite (IH (S i) (log ++ [retries]) (retries - 1) fuel) by lia.
      replace (Z.to_nat retries) with (S (Z.to_nat (retries - 1))) by lia.
      cbn [Nat.min countdown]. rewrite <- app_assoc. cbn [app].
      replace (i + S (Nat.min d (Z.to_nat (retries - 1))))%nat
        with (S (i + Nat.min d (Z.to_nat (retries - 1)))) by lia.
      destruct (decide (d <= Z.to_nat (retries - 1))%nat);
        [rewrite decide_True by lia | rewrite decide_False by lia]; done.
Qed.

(** X17. [withRetries] on a function that fails [k] times and then works.
    With [retries] not negative the function is called once more than the
    smaller of [k] and [retries], [onRetry] is called between the attempts
    with [retries], [retries - 1], ... for the retries left, and the value
    is returned exactly when [k] does not exceed [retries]; otherwise the
    failure is raised again, or [None] returned, as [reRaise] says. *)
Theorem withRetries_flaky {T : Type} (fuel k : nat) (v : T) (e : exception)
    (exceptionType : exception -> bool) (retries : Z) (reRaise : bool) :
  exceptionType e = true -> 0 <= retries ->
  (Nat.min k (Z.to_nat retries) < fuel)%nat ->
  withRetries fuel (flaky k v e) exceptionType retries note reRaise (0%nat, [])
  = Some (if decide (k <= Z.to_nat retries)%nat then Return (Some v)
          else if reRaise then Raise e else Return None,
          (S (Nat.min k (Z.to_nat retries)),
           countdown retries (Nat.min k (Z.to_nat retries)))).
Proof.
  intros He Hpos Hfuel.
  by rewrite (flaky_run k v e exceptionType reRaise k He 0%nat [] retries fuel).
Qed.

(** ** An element that raises *)

Section EagerRaise.
Context {W : Type}.

Implicit Types (iterable rest : list (element (W:=W))) (w : W).

(** X18. [eagerAll] and [eagerAny] let an exception through.  When the
    elements before it do not raise, an element that raises makes both calls
    raise its exception, whatever the earlier elements were: also after a
    false element, where the builtin [all] has returned, and after a true
    one, where the builtin [any] has returned. *)
Theorem eager_raises iterable (x : element (W:=W)) rest w (e : exception) (w' : W) :
  harmless iterable -> x (exhausted iterable w) = (Raise e, w') ->
  eagerAll (iterable ++ x :: rest) w = (Raise e, w')
  /\ eagerAny (iterable ++ x :: rest) w = (Raise e, w').
Proof.
  intros Hh Hx.
  assert (comprehension (iterable ++ x :: rest) w = (Raise e, w')) as Hc.
  { revert w Hx. induction Hh as [|y ys Hy _ IH]; intros w Hx.
    - simpl in *. by rewrite Hx.
    - simpl in *. destruct (Hy w) as (b & w1 & Hrun). rewrite Hrun in Hx |- *.
      simpl in Hx. by rewrite (IH w1 Hx). }
  unfold eagerAll, eagerAny. by rewrite Hc.
Qed.

End EagerRaise.

(** ** The further theorems at sample inputs *)

Lemma setitem_then_getitem_witness :
  _maxSize full2 = Some 2 /\ NoDup (keys full2)
  /\ __getitem__ "C" (after (__setitem__ "C" 3) full2)
     = (Return 3, cache 2 [("B", 2); ("C", 3)]).
Proof.
  split; [reflexivity|]. split; [exact full2_NoDup|].
  exact (setitem_then_getitem full2 2 "C" 3 eq_refl full2_NoDup).
Defined.

Lemma setitem_lookups_witness :
  _maxSize full2 = Some 2 /\ NoDup (keys full2)
  /\ assoc "C" (entries (after (__setitem__ "C" 3) full2)) = Some 3
  /\ __getitem__ "A" (after (__setitem__ "C" 3) full2)
     = (Raise KeyError, after (__setitem__ "C" 3) full2).
Proof.
  destruct (setitem_lookups full2 2 "C" 3 eq_refl full2_NoDup) as (Hkey & _ & _ & Hgone).
  split; [reflexivity|]. split; [exact full2_NoDup|]. split; [exact Hkey|].
  apply (Hgone ltac:(lia) eq_refl) with (v := 1) (rest := [("B", 2)]).
  - apply (bool_decide_unpack _). vm_compute. exact I.
  - reflexivity.
Defined.

Lemma getitem_reorders_witness :
  NoDup (keys full3) /\ assoc "A" (entries full3) = Some 1
  /\ entries (after (__getitem__ "A") full3) ≡ₚ entries full3
  /\ __getitem__ "A" (after (__getitem__ "A") full3)
     = (Return 1, after (__getitem__ "A") full3).
Proof.
  assert (assoc "A" (entries full3) = Some 1) as Hv by reflexivity.
  destruct (getitem_reorders full3 "A" 1 full3_NoDup Hv) as (Hperm & _ & _ & Hagain).
  split; [exact full3_NoDup|]. split; [exact Hv|]. split; [exact Hperm | exact Hagain].
Defined.

Lemma fresh_cache_keeps_newest_witness :
  NoDup (entries full3).*1
  /\ update (entries full3) (snd (new 2 [])) = (Return tt, cache 2 [("B", 2); ("C", 3)]).
Proof.
  split; [exact full3_NoDup|].
  exact (fresh_cache_keeps_newest 2 (entries full3) full3_NoDup).
Defined.

Lemma maxSize_setter_composes_witness :
  NoDup (keys full3) /\ (length (entries full3) < 4)%nat
  /\ maxSize_setter 4 5 full3 = Some (Return tt, cache 5 (entries full3))
  /\ exists self1,
       maxSize_setter 4 2 full3 = Some (Return tt, self1) /\
       maxSize_setter 4 1 self1 = maxSize_setter 4 1 full3.
Proof.
  assert (length (entries full3) < 4)%nat as Hfuel by (simpl; lia).
  destruct (maxSize_setter_composes 4 full3 2 1 full3_NoDup Hfuel) as [Hfits Htwice].
  split; [exact full3_NoDup|]. split; [exact Hfuel|]. split.
  - apply Hfits. right. simpl. lia.
  - apply Htwice. lia.
Defined.

Lemma clamp_in_range_witness :
  0 <= 10
  /\ 0 <= clamp 14 0 10 <= 10
  /\ clamp 7 0 10 = 7 /\ clamp (-3) 0 10 = 0 /\ clamp 14 0 10 = 10.
Proof.
  assert (0 <= 10) as Hord by lia.
  destruct (clamp_in_range 14 0 10 Hord) as (Hrange & _ & _ & Habove & _).
  destruct (clamp_in_range 7 0 10 Hord) as (_ & Hfix & _).
  destruct (clamp_in_range (-3) 0 10 Hord) as (_ & _ & Hbelow & _).
  split; [exact Hord|]. split; [exact Hrange|].
  split; [apply Hfix; lia|]. split; [apply Hbelow; lia | apply Habove; lia].
Defined.

Lemma clamp_crossed_bounds_witness : 3 < 8 /\ clamp 5 8 3 = 8.
Proof.
  assert (3 < 8) as Hcross by lia.
  split; [exact Hcross | exact (clamp_crossed_bounds 5 8 3 Hcross)].
Defined.

Lemma clamp_monotone_witness : -4 <= 6 /\ clamp (-4) 0 5 <= clamp 6 0 5.
Proof.
  assert (-4 <= 6) as Hxy by lia.
  split; [exact Hxy | exact (proj1 (clamp_monotone (-4) 6 0 5 Hxy))].
Defined.

Lemma eagerAll_exhausts_witness :
  harmless [fun n : nat => (Return false, S n); fun n : nat => (Return true, S n)]
  /\ exists b,
       eagerAll [fun n : nat => (Return false, S n); fun n : nat => (Return true, S n)] 0%nat
       = (Return b, 2%nat)
       /\ fst (lazy_all [fun n : nat => (Return false, S n); fun n : nat => (Return true, S n)]
                 0%nat) = Return b.
Proof.
  assert (harmless [fun n : nat => (Return false, S n); fun n : nat => (Return true, S n)])
    as Hh.
  { repeat constructor; intros w; eexists _, _; reflexivity. }
  split; [exact Hh|]. exact (eagerAll_exhausts _ 0%nat Hh).
Defined.

Lemma eagerAny_exhausts_witness :
  harmless [fun n : nat => (Return true, S n); fun n : nat => (Return false, S n)]
  /\ exists b,
       eagerAny [fun n : nat => (Return true, S n); fun n : nat => (Return false, S n)] 0%nat
       = (Return b, 2%nat)
       /\ fst (lazy_any [fun n : nat => (Return true, S n); fun n : nat => (Return false, S n)]
                 0%nat) = Return b.
Proof.
  assert (harmless [fun n : nat => (Return true, S n); fun n : nat => (Return false, S n)])
    as Hh.
  { repeat constructor; intros w; eexists _, _; reflexivity. }
  split; [exact Hh|]. exact (eagerAny_exhausts _ 0%nat Hh).
Defined.

Lemma withRetries_terminates_witness :
  0 <= 2
  /\ exists result, forall fuel, (Z.to_nat 2 < fuel)%nat ->
       withRetries fuel (flaky 1 "ok" KeyError) (fun _ => true) 2 note true (0%nat, [])
       = Some result.
Proof.
  assert (0 <= 2) as Hpos by lia.
  split; [exact Hpos|].
  exact (withRetries_terminates (flaky 1 "ok" KeyError) (fun _ => true) 2 note true
           (0%nat, []) Hpos).
Defined.

Lemma withRetries_negative_diverges_witness :
  -1 < 0
  /\ always_fails (T:=Z) (fun n : nat => (Raise KeyError, S n)) (fun _ => true)
  /\ always_returns (fun _ _ (n : nat) => (Return tt, n))
  /\ withRetries 50 (T:=Z) (fun n : nat => (Raise KeyError, S n)) (fun _ => true) (-1)
       (fun _ _ n => (Return tt, n)) true 0%nat = None.
Proof.
  assert (-1 < 0) as Hneg by lia.
  assert (always_fails (T:=Z) (fun n : nat => (Raise KeyError, S n)) (fun _ => true))
    as Hfails by (intros w; eexists _, _; split; reflexivity).
  assert (always_returns (fun (_ : exception) (_ : Z) (n : nat) => (Return tt, n)))
    as Hreturns by (intros e r w; eexists; reflexivity).
  split; [exact Hneg|]. split; [exact Hfails|]. split; [exact Hreturns|].
  exact (withRetries_negative_diverges _ _ (-1) _ true Hneg Hfails Hreturns 50%nat 0%nat).
Defined.

Lemma withRetries_exhausted_witness :
  0 <= 2 /\ (Z.to_nat 2 < 3)%nat
  /\ always_fails (T:=Z) (fun n : nat => (Raise KeyError, S n)) (fun _ => true)
  /\ always_returns (fun _ _ (n : nat) => (Return tt, n))
  /\ exists (e : exception) w',
       withRetries 3 (T:=Z) (fun n : nat => (Raise KeyError, S n)) (fun _ => true) 2
         (fun _ _ n => (Return tt, n)) false 0%nat = Some (Return None, w').
Proof.
  assert (0 <= 2) as Hpos by lia.
  assert (Z.to_nat 2 < 3)%nat as Hfuel by (simpl; lia).
  assert (always_fails (T:=Z) (fun n : nat => (Raise KeyError, S n)) (fun _ => true))
    as Hfails by (intros w; eexists _, _; split; reflexivity).
  assert (always_returns (fun (_ : exception) (_ : Z) (n : nat) => (Return tt, n)))
    as Hreturns by (intros e r w; eexists; reflexivity).
  split; [exact Hpos|]. split; [exact Hfuel|]. split; [exact Hfails|]. split; [exact Hreturns|].
  destruct (withRetries_exhausted 3 _ _ 2 _ false 0%nat Hpos Hfuel Hfails Hreturns)
    as (e & w' & _ & Hrun).
  exists e, w'. exact Hrun.
Defined.

Lemma withRetries_flaky_witness :
  (fun _ : exception => true) KeyError = true /\ 0 <= 3 /\ (Nat.min 2 (Z.to_nat 3) < 3)%nat
  /\ withRetries 3 (flaky 2 "ok" KeyError) (fun _ => true) 3 note true (0%nat, [])
     = Some (Return (Some "ok"), (3%nat, [3; 2])).
Proof.
  assert (0 <= 3) as Hpos by lia.
  assert (Nat.min 2 (Z.to_nat 3) < 3)%nat as Hfuel by (simpl; lia).
  split; [reflexivity|]. split; [exact Hpos|]. split; [exact Hfuel|].
  exact (withRetries_flaky 3 2 "ok" KeyError (fun _ => true) 3 true eq_refl Hpos Hfuel).
Defined.

Lemma eager_raises_witness :
  harmless [fun n : nat => (Return false, S n)]
  /\ (fun n : nat => (Raise (A:=bool) KeyError, S n))
       (exhausted [fun n : nat => (Return false, S n)] 0%nat) = (Raise KeyError, 2%nat)
  /\ eagerAll ([fun n : nat => (Return false, S n)]
               ++ (fun n : nat => (Raise KeyError, S n)) :: []) 0%nat
     = (Raise KeyError, 2%nat)
  /\ lazy_all ([fun n : nat => (Return false, S n)]
               ++ (fun n : nat => (Raise KeyError, S n)) :: []) 0%nat
     = (Return false, 1%nat).
Proof.
  assert (harmless [fun n : nat => (Return false, S n)]) as Hh.
  { repeat constructor; intros w; eexists _, _; reflexivity. }
  split; [exact Hh|]. split; [reflexivity|]. split; [|reflexivity].
  exact (proj1 (eager_raises [fun n : nat => (Return false, S n)]
                  (fun n : nat => (Raise KeyError, S n)) [] 0%nat KeyError 2%nat
                  Hh eq_refl)).
Defined.
